(** * SpotiFLAC go_backend: sandbox, caches, index and execution controller

    A shallow embedding of the Go backend of the application: the sandboxed
    file API of the extension runtime ([validatePath], [fileExists]), the
    track-id cache ([TrackIDCache]), the ISRC file index ([ISRCIndex]), the
    parallel cover/lyrics fetch and the cache pre-warmer, and the script
    execution controller ([RunWithTimeout]).

    Conventions of the embedding.
    - A Go [string] is a sequence of bytes: [string] here.
    - A Go function returning [(v, err)] returns a [result]; [Ok v] stands
      for [err == nil].
    - [time.Time] is an integer count of nanoseconds since the zero Time.
    - A Go [map] with string keys is a [gmap string _].
    - Code running under a mutex is one atomic state transformer; the points
      where a function drops a lock and takes another one are kept apart.
    - Paths follow Go's [path/filepath] on the Unix-like targets of the
      application (separator [/], no volume names). *)

From Stdlib Require Import ZArith Ascii String List Bool Lia.
From stdpp Require Import base option gmap strings list.

Open Scope string_scope.
Open Scope Z_scope.

(** ** Results of fallible calls *)

Inductive result (A E : Type) : Type :=
| Ok (a : A)
| Err (e : E).
Arguments Ok {A E} a.
Arguments Err {A E} e.

Definition isOk {A E} (r : result A E) : bool :=
  match r with Ok _ => true | Err _ => false end.

(** ** Package [strings] *)

(** The part of Go's Unicode tables that the byte-level fast paths of
    [strings.ToUpper] and [strings.ToLower] do not cover: what they return
    for a string holding a byte outside ASCII. *)
Class Unicode := {
  unicodeToUpper : string → string;
  unicodeToLower : string → string
}.

Module Strings.

Definition code (c : ascii) : N := N_of_ascii c.

(** [c < utf8.RuneSelf] for every byte of [s]. *)
Fixpoint isASCII (s : string) : bool :=
  match s with
  | EmptyString => true
  | String c rest => (code c <? 128)%N && isASCII rest
  end.

Definition isLower (c : ascii) : bool := ((97 <=? code c) && (code c <=? 122))%N.
Definition isUpper (c : ascii) : bool := ((65 <=? code c) && (code c <=? 90))%N.

(** [c -= 'a' - 'A'] and [c += 'a' - 'A']. *)
Definition upperByte (c : ascii) : ascii :=
  if isLower c then ascii_of_N (code c - 32) else c.
Definition lowerByte (c : ascii) : ascii :=
  if isUpper c then ascii_of_N (code c + 32) else c.

Fixpoint mapBytes (f : ascii → ascii) (s : string) : string :=
  match s with
  | EmptyString => EmptyString
  | String c rest => String (f c) (mapBytes f rest)
  end.

Definition ToUpper `{Unicode} (s : string) : string :=
  if isASCII s then mapBytes upperByte s else unicodeToUpper s.

Definition ToLower `{Unicode} (s : string) : string :=
  if isASCII s then mapBytes lowerByte s else unicodeToLower s.

Definition HasPrefix (s pre : string) : bool := String.prefix pre s.

Definition Join (elems : list string) (sep : string) : string :=
  String.concat sep elems.

End Strings.

(** ** Package [path/filepath] (Unix) *)

Module Filepath.

Definition IsPathSeparator (c : ascii) : bool := Ascii.eqb c "/".

Definition IsAbs (path : string) : bool := Strings.HasPrefix path "/".

(** The path elements between separators; an empty element stands between
    two adjacent separators, before a leading one and after a trailing one. *)
Fixpoint elements (path : string) : list string :=
  match path with
  | EmptyString => [EmptyString]
  | String c rest =>
      if IsPathSeparator c then EmptyString :: elements rest
      else match elements rest with
           | e :: es => String c e :: es
           | [] => [String c EmptyString]
           end
  end.

(** The loop of [Clean], one path element at a time. [out] holds the
    elements written so far, the last one first. An empty element and [.]
    are dropped; [..] removes the last written element when there is one
    that is not itself a leading [..], is dropped at the root of a rooted
    path, and is written otherwise. *)
Fixpoint cleanLoop (rooted : bool) (out : list string) (es : list string) : list string :=
  match es with
  | [] => rev out
  | e :: es' =>
      if String.eqb e "" then cleanLoop rooted out es'
      else if String.eqb e "." then cleanLoop rooted out es'
      else if String.eqb e ".." then
        match out with
        | o :: out' =>
            if String.eqb o ".." then cleanLoop rooted (".." :: out) es'
            else cleanLoop rooted out' es'
        | [] =>
            if rooted then cleanLoop rooted [] es'
            else cleanLoop rooted [".."] es'
        end
      else cleanLoop rooted (e :: out) es'
  end.

Definition Clean (path : string) : string :=
  let rooted := IsAbs path in
  let out := cleanLoop rooted [] (elements path) in
  if rooted then "/" +:+ Strings.Join out "/"
  else match out with
       | [] => "."
       | _ => Strings.Join out "/"
       end.

(** [Join]: the elements from the first non-empty one on, joined by the
    separator and cleaned; the empty string when there is none. *)
Fixpoint Join (elem : list string) : string :=
  match elem with
  | [] => ""
  | e :: rest =>
      if String.eqb e "" then Join rest
      else Clean (Strings.Join elem "/")
  end.

(** [Abs]; [getwd] is the outcome of [os.Getwd]. *)
Definition Abs (getwd : result string string) (path : string) : result string string :=
  if IsAbs path then Ok (Clean path)
  else match getwd with
       | Ok wd => Ok (Join [wd; path])
       | Err e => Err e
       end.

(** [Ext]: scanning from the end, the suffix from the first dot met before
    any separator. [seen] is the part already scanned. *)
Fixpoint extScan (rpath : string) (seen : string) : string :=
  match rpath with
  | EmptyString => ""
  | String c r =>
      if IsPathSeparator c then ""
      else if Ascii.eqb c "." then String c seen
      else extScan r (String c seen)
  end.

Definition Ext (path : string) : string := extScan (String.rev path) "".

(** For the properties of [Clean]: an element that holds no separator; a
    name, which is an element that [Clean] keeps and that is not [..]; the
    shape of the stack of [cleanLoop], names on top of [..] elements, the
    latter only when the path is not rooted. *)
Fixpoint noSep (e : string) : bool :=
  match e with
  | EmptyString => true
  | String c rest => negb (IsPathSeparator c) && noSep rest
  end.

Definition isName (e : string) : bool :=
  noSep e && negb (String.eqb e "") && negb (String.eqb e ".") && negb (String.eqb e "..").

Definition isDotDot (e : string) : bool := String.eqb e "..".

Definition stackOK (rooted : bool) (out : list string) : Prop :=
  ∃ names dots, out = (names ++ dots)%list ∧ forallb isName names = true
    ∧ forallb isDotDot dots = true ∧ (rooted = true → dots = []).

End Filepath.

(** ** The operating system, as far as the code asks it *)

Record FileInfo := {
  IsDir : bool;
  Size : Z
}.

Record WalkEntry := {
  walkPath : string;
  walkInfo : result FileInfo string   (* [Err] when the callback gets [err != nil] *)
}.

Record OS := {
  Getwd : result string string;
  Stat : string → result FileInfo string;
  (** the entries [filepath.Walk root] hands to a callback that never
      returns an error, in walk order *)
  Walk : string → list WalkEntry
}.

(** ** The sandboxed file API of the extension runtime *)

Record ExtensionPermissions := {
  File : bool
}.

Record ExtensionManifest := {
  Permissions : ExtensionPermissions
}.

Record ExtensionRuntime := {
  extensionID : string;
  manifest : ExtensionManifest;
  dataDir : string
}.

(** The errors [validatePath] builds with [fmt.Errorf], one constructor per
    call site; [PathError_Error] is the text of each. *)
Inductive PathError :=
| ErrNoFilePermission
| ErrInvalidPath (cause : string)
| ErrAbsoluteNotAllowed
| ErrOutsideSandbox (path : string).

Definition PathError_Error (e : PathError) : string :=
  match e with
  | ErrNoFilePermission =>
      "file access denied: extension does not have 'file' permission"
  | ErrInvalidPath cause => "invalid path: " +:+ cause
  | ErrAbsoluteNotAllowed =>
      "file access denied: absolute paths are not allowed. Use relative paths within extension sandbox"
  | ErrOutsideSandbox path =>
      "file access denied: path '" +:+ path +:+ "' is outside sandbox"
  end.

(** The classes of the error taxonomy the sandbox errors fall in. *)
Inductive ErrorKind := PermissionDenied | PathTraversal | InvalidPath.

Definition PathError_kind (e : PathError) : ErrorKind :=
  match e with
  | ErrNoFilePermission => PermissionDenied
  | ErrInvalidPath _ => InvalidPath
  | ErrAbsoluteNotAllowed => PermissionDenied
  | ErrOutsideSandbox _ => PathTraversal
  end.

(** The package variable [allowedDownloadDirs] is a [list string]. *)

Definition SetAllowedDownloadDirs (dirs : list string) (allowedDownloadDirs : list string) : list string :=
  dirs.

Definition AddAllowedDownloadDir (os : OS) (dir : string) (allowedDownloadDirs : list string) : list string :=
  match Filepath.Abs (Getwd os) dir with
  | Ok absDir => (allowedDownloadDirs ++ [absDir])%list
  | Err _ => allowedDownloadDirs
  end.

Fixpoint isPathInAllowedDirs (allowedDownloadDirs : list string) (absPath : string) : bool :=
  match allowedDownloadDirs with
  | [] => false
  | allowedDir :: rest =>
      if Strings.HasPrefix absPath allowedDir then true
      else isPathInAllowedDirs rest absPath
  end.

Definition validatePath (os : OS) (allowedDownloadDirs : list string)
    (r : ExtensionRuntime) (path : string) : result string PathError :=
  if negb (File (Permissions (manifest r))) then Err ErrNoFilePermission
  else
    let cleanPath := Filepath.Clean path in
    if Filepath.IsAbs cleanPath then
      match Filepath.Abs (Getwd os) cleanPath with
      | Err e => Err (ErrInvalidPath e)
      | Ok absPath =>
          if isPathInAllowedDirs allowedDownloadDirs absPath then Ok absPath
          else Err ErrAbsoluteNotAllowed
      end
    else
      let fullPath := Filepath.Join [dataDir r; cleanPath] in
      match Filepath.Abs (Getwd os) fullPath with
      | Err e => Err (ErrInvalidPath e)
      | Ok absPath =>
          let absDataDir :=
            match Filepath.Abs (Getwd os) (dataDir r) with
            | Ok d => d
            | Err _ => ""
            end in
          if negb (Strings.HasPrefix absPath absDataDir) then Err (ErrOutsideSandbox path)
          else Ok absPath
      end.

(** What a script gets back: the Go value handed to [vm.ToValue]. *)
#[warnings="-register-all"]
Inductive Value :=
| VBool (b : bool)
| VInt (n : Z)
| VString (s : string)
| VObject (fields : list (string * Value)).

(** [fileExists]; each argument of the call is given by the string that
    [Value.String()] yields for it. *)
Definition fileExists (os : OS) (allowedDownloadDirs : list string)
    (r : ExtensionRuntime) (arguments : list string) : Value :=
  match arguments with
  | [] => VBool false
  | path :: _ =>
      match validatePath os allowedDownloadDirs r path with
      | Err _ => VBool false
      | Ok fullPath => VBool (isOk (Stat os fullPath))
      end
  end.

(** [fileGetSize], a sibling that answers with a [{success, error}] object. *)
Definition fileGetSize (os : OS) (allowedDownloadDirs : list string)
    (r : ExtensionRuntime) (arguments : list string) : Value :=
  match arguments with
  | [] => VObject [("success", VBool false); ("error", VString "path is required")]
  | path :: _ =>
      match validatePath os allowedDownloadDirs r path with
      | Err e => VObject [("success", VBool false); ("error", VString (PathError_Error e))]
      | Ok fullPath =>
          match Stat os fullPath with
          | Err e => VObject [("success", VBool false); ("error", VString e)]
          | Ok info => VObject [("success", VBool true); ("size", VInt (Size info))]
          end
      end
  end.

(** ** Package [time] *)

Module Time.

(** A [time.Time]: nanoseconds since the zero Time. A [time.Duration]:
    a signed 64-bit count of nanoseconds. *)
Definition Time := Z.
Definition Duration := Z.

Definition Nanosecond : Duration := 1.
Definition Millisecond : Duration := 1000000.
Definition Second : Duration := 1000 * Millisecond.
Definition Minute : Duration := 60 * Second.

Definition maxDuration : Duration := 2 ^ 63 - 1.
Definition minDuration : Duration := - 2 ^ 63.

Definition IsZero (t : Time) : bool := t =? 0.
Definition After (t u : Time) : bool := u <? t.
Definition Add (t : Time) (d : Duration) : Time := t + d.

(** [t.Sub(u)], which saturates at the ends of [Duration]. *)
Definition Sub (t u : Time) : Duration :=
  Z.max minDuration (Z.min maxDuration (t - u)).

(** [time.Since(t)] when the clock reads [now]. *)
Definition Since (now t : Time) : Duration := Sub now t.

End Time.

(** ** The track-id cache *)

Record TrackIDCacheEntry := {
  TidalTrackID : Z;
  QobuzTrackID : Z;
  AmazonTrackID : string;
  ExpiresAt : Time.Time
}.

(** The fields of [TrackIDCache] but its lock. An entry is held by value:
    each key owns the entry it points to, no two keys share one. *)
Record TrackIDCache := {
  cache : gmap string TrackIDCacheEntry;
  ttl : Time.Duration;
  lastCleanup : Time.Time;
  cleanupInterval : Time.Duration
}.

(** The zero value [&TrackIDCacheEntry{}]. *)
Definition emptyEntry : TrackIDCacheEntry :=
  {| TidalTrackID := 0; QobuzTrackID := 0; AmazonTrackID := ""; ExpiresAt := 0 |}.

(** The cache [GetTrackIDCache] builds on its first call. *)
Definition newTrackIDCache : TrackIDCache :=
  {| cache := ∅;
     ttl := 30 * Time.Minute;
     lastCleanup := 0;
     cleanupInterval := 5 * Time.Minute |}.

Definition withCache (c : TrackIDCache) (m : gmap string TrackIDCacheEntry) : TrackIDCache :=
  {| cache := m; ttl := ttl c; lastCleanup := lastCleanup c;
     cleanupInterval := cleanupInterval c |}.

(** [Get] takes the read lock, drops it, and takes the write lock when it
    found the entry expired. [GetLookup] is the part under the read lock,
    at clock reading [now]. *)
Inductive GetLookup :=
| Missing
| Live (entry : TrackIDCacheEntry)
| Expired.

Definition Get_rlocked (now : Time.Time) (isrc : string) (c : TrackIDCache) : GetLookup :=
  match cache c !! isrc with
  | None => Missing
  | Some entry => if Time.After now (ExpiresAt entry) then Expired else Live entry
  end.

(** The part of [Get] under the write lock, at clock reading [now]. *)
Definition Get_locked (now : Time.Time) (isrc : string) (c : TrackIDCache) : TrackIDCache :=
  match cache c !! isrc with
  | Some entry =>
      if Time.After now (ExpiresAt entry) then withCache c (delete isrc (cache c)) else c
  | None => c
  end.

(** [Get] when other goroutines ran between the two locks: [c] is the cache
    under the read lock, [c'] the cache under the write lock. *)
Definition Get_between (now1 now2 : Time.Time) (isrc : string) (c c' : TrackIDCache)
    : option TrackIDCacheEntry * TrackIDCache :=
  match Get_rlocked now1 isrc c with
  | Missing => (None, c)
  | Live entry => (Some entry, c)
  | Expired => (None, Get_locked now2 isrc c')
  end.

(** [Get] with no other goroutine in between; [now1] and [now2] are the two
    readings of the clock. *)
Definition Get (now1 now2 : Time.Time) (isrc : string) (c : TrackIDCache)
    : option TrackIDCacheEntry * TrackIDCache :=
  Get_between now1 now2 isrc c c.

Definition pruneExpiredLocked (now : Time.Time) (c : TrackIDCache) : TrackIDCache :=
  withCache c (filter (λ kv : string * TrackIDCacheEntry, Time.After now (ExpiresAt kv.2) = false) (cache c)).

(** The tail shared by the three setters: the sweep of expired entries. *)
Definition cleanupIfDue (now : Time.Time) (c : TrackIDCache) : TrackIDCache :=
  if (0 <? cleanupInterval c)
     && (Time.IsZero (lastCleanup c) || (cleanupInterval c <=? Time.Sub now (lastCleanup c)))
  then
    let c' := pruneExpiredLocked now c in
    {| cache := cache c'; ttl := ttl c'; lastCleanup := now;
       cleanupInterval := cleanupInterval c' |}
  else c.

(** The entry at [isrc], made and stored when there is none. *)
Definition entryOrNew (isrc : string) (c : TrackIDCache) : TrackIDCacheEntry :=
  match cache c !! isrc with
  | Some entry => entry
  | None => emptyEntry
  end.

Definition SetTidal (now : Time.Time) (isrc : string) (trackID : Z) (c : TrackIDCache) : TrackIDCache :=
  let entry := entryOrNew isrc c in
  let entry' :=
    {| TidalTrackID := trackID;
       QobuzTrackID := QobuzTrackID entry;
       AmazonTrackID := AmazonTrackID entry;
       ExpiresAt := Time.Add now (ttl c) |} in
  cleanupIfDue now (withCache c (<[isrc := entry']> (cache c))).

Definition SetQobuz (now : Time.Time) (isrc : string) (trackID : Z) (c : TrackIDCache) : TrackIDCache :=
  let entry := entryOrNew isrc c in
  let entry' :=
    {| TidalTrackID := TidalTrackID entry;
       QobuzTrackID := trackID;
       AmazonTrackID := AmazonTrackID entry;
       ExpiresAt := Time.Add now (ttl c) |} in
  cleanupIfDue now (withCache c (<[isrc := entry']> (cache c))).

Definition SetAmazon (now : Time.Time) (isrc : string) (trackID : string) (c : TrackIDCache) : TrackIDCache :=
  let entry := entryOrNew isrc c in
  let entry' :=
    {| TidalTrackID := TidalTrackID entry;
       QobuzTrackID := QobuzTrackID entry;
       AmazonTrackID := trackID;
       ExpiresAt := Time.Add now (ttl c) |} in
  cleanupIfDue now (withCache c (<[isrc := entry']> (cache c))).

Definition Clear (c : TrackIDCache) : TrackIDCache := withCache c ∅.

Definition CacheSize (c : TrackIDCache) : nat := size (cache c).

(** ** The ISRC file index *)

(** The tags [ReadMetadata] returns, as far as the index reads them. *)
Record AudioMetadata := {
  ISRC : string
}.

(** The fields of [ISRCIndex] but its lock. *)
Record ISRCIndex := {
  index : gmap string string;   (* ISRC (uppercase) -> file path *)
  outputDir : string;
  buildTime : Time.Time
}.

Definition isrcIndexTTL : Time.Duration := 5 * Time.Minute.

Definition withIndex (idx : ISRCIndex) (m : gmap string string) : ISRCIndex :=
  {| index := m; outputDir := outputDir idx; buildTime := buildTime idx |}.

(** The methods of [*ISRCIndex]. *)
Module Index.

Definition lookup `{Unicode} (idx : ISRCIndex) (isrc : string) : string * bool :=
  if String.eqb isrc "" then ("", false)
  else match index idx !! Strings.ToUpper isrc with
       | Some path => (path, true)
       | None => ("", false)
       end.

Definition remove `{Unicode} (idx : ISRCIndex) (isrc : string) : ISRCIndex :=
  if String.eqb isrc "" then idx
  else withIndex idx (delete (Strings.ToUpper isrc) (index idx)).

Definition Lookup `{Unicode} (idx : ISRCIndex) (isrc : string) : result string string :=
  Ok (fst (lookup idx isrc)).

Definition Add `{Unicode} (idx : ISRCIndex) (isrc filePath : string) : ISRCIndex :=
  if String.eqb isrc "" || String.eqb filePath "" then idx
  else withIndex idx (<[Strings.ToUpper isrc := filePath]> (index idx)).

End Index.

(** The package variable [isrcIndexCache] is a [gmap string ISRCIndex]. It
    holds pointers in the code: the index a function got from the cache and
    then changes is the one the cache holds, so the change is written back
    under the directory's key. *)

(** The callback [buildISRCIndex] gives to [filepath.Walk]; [readMetadata]
    is the tag reader [ReadMetadata]. *)
Definition indexFile `{Unicode} (readMetadata : string → result AudioMetadata string)
    (m : gmap string string) (e : WalkEntry) : gmap string string :=
  match walkInfo e with
  | Err _ => m
  | Ok info =>
      if IsDir info then m
      else if negb (String.eqb (Strings.ToLower (Filepath.Ext (walkPath e))) ".flac") then m
      else match readMetadata (walkPath e) with
           | Err _ => m
           | Ok metadata =>
               if String.eqb (ISRC metadata) "" then m
               else <[Strings.ToUpper (ISRC metadata) := walkPath e]> m
           end
  end.

Definition buildISRCIndex `{Unicode} (now : Time.Time) (os : OS)
    (readMetadata : string → result AudioMetadata string)
    (dir : string) (isrcIndexCache : gmap string ISRCIndex)
    : ISRCIndex * gmap string ISRCIndex :=
  let idx := {| index := ∅; outputDir := dir; buildTime := now |} in
  if String.eqb dir "" then (idx, isrcIndexCache)
  else
    let idx' := withIndex idx (fold_left (indexFile readMetadata) (Walk os dir) (index idx)) in
    (idx', <[dir := idx']> isrcIndexCache).

(** The cached index of a directory when it is younger than the TTL. *)
Definition freshIndex (now : Time.Time) (dir : string)
    (isrcIndexCache : gmap string ISRCIndex) : option ISRCIndex :=
  match isrcIndexCache !! dir with
  | Some idx => if Time.Since now (buildTime idx) <? isrcIndexTTL then Some idx else None
  | None => None
  end.

(** [GetISRCIndex] at clock reading [now]: the fast path, then, under the
    build lock of the directory, the second look at the cache and the
    build. *)
Definition GetISRCIndex `{Unicode} (now : Time.Time) (os : OS)
    (readMetadata : string → result AudioMetadata string)
    (dir : string) (isrcIndexCache : gmap string ISRCIndex)
    : ISRCIndex * gmap string ISRCIndex :=
  match freshIndex now dir isrcIndexCache with
  | Some idx => (idx, isrcIndexCache)
  | None =>
      match freshIndex now dir isrcIndexCache with
      | Some idx => (idx, isrcIndexCache)
      | None => buildISRCIndex now os readMetadata dir isrcIndexCache
      end
  end.

Definition InvalidateISRCCache (dir : string) (isrcIndexCache : gmap string ISRCIndex)
    : gmap string ISRCIndex :=
  delete dir isrcIndexCache.

Definition CheckFileExists (os : OS) (filePath : string) : bool :=
  match Stat os filePath with
  | Err _ => false
  | Ok info => negb (IsDir info) && (0 <? Size info)
  end.

Definition checkISRCExistsInternal `{Unicode} (now : Time.Time) (os : OS)
    (readMetadata : string → result AudioMetadata string)
    (dir isrc : string) (isrcIndexCache : gmap string ISRCIndex)
    : (string * bool) * gmap string ISRCIndex :=
  if String.eqb isrc "" || String.eqb dir "" then (("", false), isrcIndexCache)
  else
    let '(idx, cache1) := GetISRCIndex now os readMetadata dir isrcIndexCache in
    let '(filePath, exists_) := Index.lookup idx isrc in
    if negb exists_ then (("", false), cache1)
    else if negb (CheckFileExists os filePath) then
      (("", false), <[dir := Index.remove idx isrc]> cache1)
    else ((filePath, true), cache1).

Definition CheckISRCExists `{Unicode} (now : Time.Time) (os : OS)
    (readMetadata : string → result AudioMetadata string)
    (dir isrc : string) (isrcIndexCache : gmap string ISRCIndex)
    : result string string * gmap string ISRCIndex :=
  let '((filepath, _), cache1) :=
    checkISRCExistsInternal now os readMetadata dir isrc isrcIndexCache in
  (Ok filepath, cache1).

Definition PreBuildISRCIndex `{Unicode} (now : Time.Time) (os : OS)
    (readMetadata : string → result AudioMetadata string)
    (dir : string) (isrcIndexCache : gmap string ISRCIndex)
    : result unit string * gmap string ISRCIndex :=
  if String.eqb dir "" then (Err "output directory is required", isrcIndexCache)
  else (Ok tt, snd (buildISRCIndex now os readMetadata dir isrcIndexCache)).

Definition AddToISRCIndex `{Unicode} (dir isrc filePath : string)
    (isrcIndexCache : gmap string ISRCIndex) : gmap string ISRCIndex :=
  if String.eqb dir "" || String.eqb isrc "" || String.eqb filePath "" then isrcIndexCache
  else match isrcIndexCache !! dir with
       | Some idx => <[dir := Index.Add idx isrc filePath]> isrcIndexCache
       | None => isrcIndexCache
       end.

(** ** The parallel cover and lyrics fetch *)

(** A [LyricsResponse], as far as this code reads it: its lines, whose
    fields it does not look at. *)
Record LyricsResponse := {
  Lines : list string
}.

(** The functions of the repository the fetch calls. An [error] is given by
    its text. [FetchLyricsAllSources] belongs to the lyrics client; it gets
    the duration in milliseconds here, the code divides it by 1000 on the
    way. A [nil] response is [None]. *)
Record Fetchers := {
  downloadCoverToMemory : string → bool → result string string;
  FetchLyricsAllSources : string → string → string → Z → result (option LyricsResponse) string;
  convertToLRCWithMetadata : LyricsResponse → string → string → string
}.

Record ParallelDownloadResult := {
  CoverData : option string;
  LyricsData : option LyricsResponse;
  LyricsLRC : string;
  CoverErr : option string;
  LyricsErr : option string
}.

(** The zero value [&ParallelDownloadResult{}]. *)
Definition emptyDownloadResult : ParallelDownloadResult :=
  {| CoverData := None; LyricsData := None; LyricsLRC := "";
     CoverErr := None; LyricsErr := None |}.

(** The first goroutine: what it writes into the shared result. *)
Definition coverTask (F : Fetchers) (coverURL : string) (maxQualityCover : bool)
    (res : ParallelDownloadResult) : ParallelDownloadResult :=
  match downloadCoverToMemory F coverURL maxQualityCover with
  | Err err =>
      {| CoverData := CoverData res; LyricsData := LyricsData res;
         LyricsLRC := LyricsLRC res; CoverErr := Some err; LyricsErr := LyricsErr res |}
  | Ok data =>
      {| CoverData := Some data; LyricsData := LyricsData res;
         LyricsLRC := LyricsLRC res; CoverErr := CoverErr res; LyricsErr := LyricsErr res |}
  end.

(** The second goroutine. *)
Definition lyricsTask (F : Fetchers) (spotifyID trackName artistName : string)
    (durationMs : Z) (res : ParallelDownloadResult) : ParallelDownloadResult :=
  let withLyricsErr (err : string) :=
    {| CoverData := CoverData res; LyricsData := LyricsData res;
       LyricsLRC := LyricsLRC res; CoverErr := CoverErr res; LyricsErr := Some err |} in
  match FetchLyricsAllSources F spotifyID trackName artistName durationMs with
  | Err err => withLyricsErr err
  | Ok (Some lyrics) =>
      if (0 <? length (Lines lyrics))%nat then
        {| CoverData := CoverData res; LyricsData := Some lyrics;
           LyricsLRC := convertToLRCWithMetadata F lyrics trackName artistName;
           CoverErr := CoverErr res; LyricsErr := LyricsErr res |}
      else withLyricsErr "no lyrics found"
  | Ok None => withLyricsErr "no lyrics found"
  end.

(** [FetchCoverAndLyricsParallel]: the result after [wg.Wait()], the cover
    goroutine having written first. *)
Definition FetchCoverAndLyricsParallel (F : Fetchers)
    (coverURL : string) (maxQualityCover : bool)
    (spotifyID trackName artistName : string)
    (embedLyrics : bool) (durationMs : Z) : ParallelDownloadResult :=
  let r0 := emptyDownloadResult in
  let r1 := if negb (String.eqb coverURL "") then coverTask F coverURL maxQualityCover r0 else r0 in
  if embedLyrics then lyricsTask F spotifyID trackName artistName durationMs r1 else r1.

(** The same with the lyrics goroutine writing first. *)
Definition FetchCoverAndLyricsParallel_lyricsFirst (F : Fetchers)
    (coverURL : string) (maxQualityCover : bool)
    (spotifyID trackName artistName : string)
    (embedLyrics : bool) (durationMs : Z) : ParallelDownloadResult :=
  let r0 := emptyDownloadResult in
  let r1 := if embedLyrics then lyricsTask F spotifyID trackName artistName durationMs r0 else r0 in
  if negb (String.eqb coverURL "") then coverTask F coverURL maxQualityCover r1 else r1.

(** ** The cache pre-warmer *)

Module PreWarmCacheRequest.
Record t := {
  ISRC : string;
  TrackName : string;
  ArtistName : string;
  SpotifyID : string;
  Service : string
}.
End PreWarmCacheRequest.

Record TrackAvailability := {
  Amazon : bool;
  AmazonURL : string
}.

(** The remote lookups of the per-service clients: the track id found by
    [SearchTrackByISRC] of the Tidal and of the Qobuz downloader, and
    [CheckTrackAvailability] of the SongLink client. [Ok None] is a [nil]
    answer with no error. *)
Record Resolvers := {
  TidalSearchTrackByISRC : string → result (option Z) string;
  QobuzSearchTrackByISRC : string → result (option Z) string;
  CheckTrackAvailability : string → string → result (option TrackAvailability) string
}.

Inductive ResolverCall :=
| CallTidal (isrc : string)
| CallQobuz (isrc : string)
| CallSongLink (spotifyID isrc : string).

(** The global cache and the log of the remote lookups made so far. *)
Record PreWarmState := {
  trackIDCache : TrackIDCache;
  calls : list ResolverCall
}.

Definition preWarmTidalCache (now : Time.Time) (R : Resolvers) (isrc : string)
    (st : PreWarmState) : PreWarmState :=
  let calls' := (calls st ++ [CallTidal isrc])%list in
  match TidalSearchTrackByISRC R isrc with
  | Ok (Some id) => {| trackIDCache := SetTidal now isrc id (trackIDCache st); calls := calls' |}
  | _ => {| trackIDCache := trackIDCache st; calls := calls' |}
  end.

Definition preWarmQobuzCache (now : Time.Time) (R : Resolvers) (isrc : string)
    (st : PreWarmState) : PreWarmState :=
  let calls' := (calls st ++ [CallQobuz isrc])%list in
  match QobuzSearchTrackByISRC R isrc with
  | Ok (Some id) => {| trackIDCache := SetQobuz now isrc id (trackIDCache st); calls := calls' |}
  | _ => {| trackIDCache := trackIDCache st; calls := calls' |}
  end.

Definition preWarmAmazonCache (now : Time.Time) (R : Resolvers) (isrc spotifyID : string)
    (st : PreWarmState) : PreWarmState :=
  let calls' := (calls st ++ [CallSongLink spotifyID isrc])%list in
  match CheckTrackAvailability R spotifyID isrc with
  | Ok (Some availability) =>
      if Amazon availability then
        {| trackIDCache := SetAmazon now isrc (AmazonURL availability) (trackIDCache st);
           calls := calls' |}
      else {| trackIDCache := trackIDCache st; calls := calls' |}
  | _ => {| trackIDCache := trackIDCache st; calls := calls' |}
  end.

(** The body of the goroutine started for a request. *)
Definition preWarmOne (now : Time.Time) (R : Resolvers) (r : PreWarmCacheRequest.t)
    (st : PreWarmState) : PreWarmState :=
  let service := PreWarmCacheRequest.Service r in
  if String.eqb service "tidal" then preWarmTidalCache now R (PreWarmCacheRequest.ISRC r) st
  else if String.eqb service "qobuz" then preWarmQobuzCache now R (PreWarmCacheRequest.ISRC r) st
  else if String.eqb service "amazon" then
    preWarmAmazonCache now R (PreWarmCacheRequest.ISRC r) (PreWarmCacheRequest.SpotifyID r) st
  else st.

(** The loop of [PreWarmTrackCache], in the schedule where a started
    goroutine finishes before the loop goes on, the clock reading [now]
    throughout. *)
Fixpoint preWarmLoop (now : Time.Time) (R : Resolvers)
    (requests : list PreWarmCacheRequest.t) (st : PreWarmState) : PreWarmState :=
  match requests with
  | [] => st
  | req :: rest =>
      let '(cached, c1) := Get now now (PreWarmCacheRequest.ISRC req) (trackIDCache st) in
      let st1 := {| trackIDCache := c1; calls := calls st |} in
      match cached with
      | Some _ => preWarmLoop now R rest st1
      | None => preWarmLoop now R rest (preWarmOne now R req st1)
      end
  end.

Definition PreWarmTrackCache (now : Time.Time) (R : Resolvers)
    (requests : list PreWarmCacheRequest.t) (st : PreWarmState) : PreWarmState :=
  if (length requests =? 0)%nat then st
  else preWarmLoop now R requests st.

(** [PreWarmCache]: [requests] is declared and never assigned, so it is the
    [nil] slice when [PreWarmTrackCache] is started on it. The result is the
    returned error ([None] for [nil]) and the state once the started
    goroutine is done. *)
Definition PreWarmCache (now : Time.Time) (R : Resolvers) (tracksJSON : string)
    (st : PreWarmState) : option string * PreWarmState :=
  let requests : list PreWarmCacheRequest.t := [] in
  (None, PreWarmTrackCache now R requests st).

Definition ClearTrackCache (st : PreWarmState) : PreWarmState :=
  {| trackIDCache := Clear (trackIDCache st); calls := calls st |}.

Definition GetCacheSize (st : PreWarmState) : nat := CacheSize (trackIDCache st).

(** ** The script execution controller *)

Module Exec.

(** The values of the interface [error] that the controller meets: its own
    [*JSExecutionError], an error built by [fmt.Errorf], and an error of the
    script engine (a thrown exception, an interrupt). *)
Inductive error :=
| JSExecutionError (Message : string) (IsTimeout : bool)
| Errorf (text : string)
| EngineError (text : string).

(** The local type [result] of [RunWithTimeout]; [None] is [nil]. *)
Record result := {
  value : option Value;
  err : option error
}.

Definition IsTimeoutError (err : option error) : bool :=
  match err with
  | Some (JSExecutionError _ isTimeout) => isTimeout
  | _ => false
  end.

(** The timeout in force; [DefaultJSTimeout] is a constant of the package. *)
Definition effectiveTimeout (DefaultJSTimeout timeout : Time.Duration) : Time.Duration :=
  if timeout <=? 0 then DefaultJSTimeout else timeout.

(** Where the goroutine that runs the script is. *)
Inductive Goroutine :=
| Running                                          (* inside [vm.RunString] *)
| Recovered (r : string)                           (* [recover()] gave [r], printed with [%v] *)
| Classified (r : string) (wasInterrupted : bool)  (* the flag is read, nothing is sent yet *)
| Exited.

(** Where the caller is. *)
Inductive Caller :=
| AtSelect                       (* the first [select] *)
| AtGraceSelect                  (* the flag is set, [vm.Interrupt] is called; the second [select] *)
| Returned (res : result).

Record State := {
  goroutine : Goroutine;
  caller : Caller;
  interrupted : bool;
  resultCh : option result         (* a channel of capacity 1 *)
}.

Definition start : State :=
  {| goroutine := Running; caller := AtSelect; interrupted := false; resultCh := None |}.

(** What can happen next. The script decides whether and when
    [vm.RunString] returns or panics; the clock decides when the deadline
    and the grace period end. *)
Inductive Event :=
| RunReturns (val : option Value) (e : option error)  (* [RunString] returns, the result is sent *)
| RunPanics (r : string)                              (* [RunString] panics, the deferred function recovers *)
| ReadsFlag                                           (* the deferred function reads [interrupted] *)
| SendsResult                                         (* the deferred function sends its result *)
| Receives                                            (* the caller's [select] takes [resultCh] *)
| DeadlineFires                                       (* the caller's [select] takes [ctx.Done()] *)
| GraceElapses.                                       (* the caller's [select] takes [time.After] *)

Definition timeoutError : error := JSExecutionError "execution timeout exceeded" true.
Definition forcedTimeoutError : error := JSExecutionError "execution timeout exceeded (force)" true.
Definition panicError (r : string) : error := Errorf ("panic during execution: " +:+ r).

Definition step (s : State) (ev : Event) : option State :=
  match ev with
  | RunReturns val e =>
      match goroutine s with
      | Running =>
          Some {| goroutine := Exited; caller := caller s; interrupted := interrupted s;
                  resultCh := Some {| value := val; err := e |} |}
      | _ => None
      end
  | RunPanics r =>
      match goroutine s with
      | Running =>
          Some {| goroutine := Recovered r; caller := caller s; interrupted := interrupted s;
                  resultCh := resultCh s |}
      | _ => None
      end
  | ReadsFlag =>
      match goroutine s with
      | Recovered r =>
          Some {| goroutine := Classified r (interrupted s); caller := caller s;
                  interrupted := interrupted s; resultCh := resultCh s |}
      | _ => None
      end
  | SendsResult =>
      match goroutine s with
      | Classified r wasInterrupted =>
          let res :=
            if wasInterrupted then {| value := None; err := Some timeoutError |}
            else {| value := None; err := Some (panicError r) |} in
          Some {| goroutine := Exited; caller := caller s; interrupted := interrupted s;
                  resultCh := Some res |}
      | _ => None
      end
  | Receives =>
      match caller s, resultCh s with
      | AtSelect, Some res =>
          Some {| goroutine := goroutine s; caller := Returned res;
                  interrupted := interrupted s; resultCh := None |}
      | AtGraceSelect, Some res =>
          let out :=
            match err res with
            | Some e => {| value := None; err := Some e |}
            | None => {| value := None; err := Some timeoutError |}
            end in
          Some {| goroutine := goroutine s; caller := Returned out;
                  interrupted := interrupted s; resultCh := None |}
      | _, _ => None
      end
  | DeadlineFires =>
      match caller s with
      | AtSelect =>
          Some {| goroutine := goroutine s; caller := AtGraceSelect;
                  interrupted := true; resultCh := resultCh s |}
      | _ => None
      end
  | GraceElapses =>
      match caller s with
      | AtGraceSelect =>
          Some {| goroutine := goroutine s;
                  caller := Returned {| value := None; err := Some forcedTimeoutError |};
                  interrupted := interrupted s; resultCh := resultCh s |}
      | _ => None
      end
  end.

(** The state after a schedule, [None] when an event of it cannot happen. *)
Fixpoint run (s : State) (evs : list Event) : option State :=
  match evs with
  | [] => Some s
  | ev :: rest =>
      match step s ev with
      | Some s' => run s' rest
      | None => None
      end
  end.

(** [RunWithTimeout] under a schedule: what the caller returns, when the
    schedule makes it return. *)
Definition RunWithTimeout (evs : list Event) : option result :=
  match run start evs with
  | Some s => match caller s with Returned res => Some res | _ => None end
  | None => None
  end.

(** What a schedule did, for the properties: the value of [interrupted]
    when [RunString] panicked, the value the deferred function read, and
    whether the grace period ran out. *)
Record History := {
  flagAtPanic : option bool;
  flagRead : option bool;
  graceElapsed : bool
}.

Definition noHistory : History :=
  {| flagAtPanic := None; flagRead := None; graceElapsed := false |}.

Definition record (s : State) (ev : Event) (h : History) : History :=
  match ev with
  | RunPanics _ =>
      {| flagAtPanic := Some (interrupted s); flagRead := flagRead h;
         graceElapsed := graceElapsed h |}
  | ReadsFlag =>
      {| flagAtPanic := flagAtPanic h; flagRead := Some (interrupted s);
         graceElapsed := graceElapsed h |}
  | GraceElapses =>
      {| flagAtPanic := flagAtPanic h; flagRead := flagRead h; graceElapsed := true |}
  | _ => h
  end.

Fixpoint history (s : State) (h : History) (evs : list Event) : History :=
  match evs with
  | [] => h
  | ev :: rest =>
      match step s ev with
      | Some s' => history s' (record s ev h) rest
      | None => h
      end
  end.

(** What the deferred function sends after a panic. *)
Definition sentAfterPanic (r : string) (wasInterrupted : bool) : result :=
  if wasInterrupted then {| value := None; err := Some timeoutError |}
  else {| value := None; err := Some (panicError r) |}.

Definition forcedResult : result := {| value := None; err := Some forcedTimeoutError |}.

(** The caller has taken nothing from the channel. *)
Definition notReceived s h : Prop :=
  ∀ res, caller s = Returned res → graceElapsed h = true.

(** The invariant of the controller: how the places of the goroutine and
    of the caller, the flag and the channel go with what happened. *)
Definition inv s h : Prop :=
  match caller s with
  | AtSelect => interrupted s = false ∧ graceElapsed h = false
  | AtGraceSelect => interrupted s = true ∧ graceElapsed h = false
  | Returned res => graceElapsed h = true → res = forcedResult
  end
  ∧ match goroutine s with
    | Running =>
        flagAtPanic h = None ∧ flagRead h = None ∧ resultCh s = None ∧ notReceived s h
    | Recovered r =>
        (∃ pf, flagAtPanic h = Some pf ∧ (pf = true → interrupted s = true))
        ∧ flagRead h = None ∧ resultCh s = None ∧ notReceived s h
    | Classified r w =>
        (∃ pf, flagAtPanic h = Some pf ∧ (pf = true → w = true))
        ∧ flagRead h = Some w ∧ resultCh s = None ∧ notReceived s h
    | Exited =>
        (flagAtPanic h = None ∧ flagRead h = None)
        ∨ ∃ r w pf, flagAtPanic h = Some pf ∧ (pf = true → w = true) ∧ flagRead h = Some w
            ∧ (resultCh s = Some (sentAfterPanic r w) ∧ notReceived s h
               ∨ resultCh s = None ∧ caller s = Returned (sentAfterPanic r w)
                 ∧ graceElapsed h = false)
    end.

End Exec.

(** ** Vocabulary of the properties *)

(** A path lies inside a directory when the elements of the directory are
    the leading elements of the path. *)
Fixpoint leadingElements (dir p : list string) : bool :=
  match dir, p with
  | [], _ => true
  | d :: dir', e :: p' => String.eqb d e && leadingElements dir' p'
  | _ :: _, [] => false
  end.

Definition insideDirectory (dir path : string) : bool :=
  leadingElements (Filepath.elements dir) (Filepath.elements path).

(** Two bytes that are the same letter in either case, or the same byte. *)
Definition sameLetter (x y : ascii) : bool :=
  Ascii.eqb x y
  || (Strings.isLower x && Ascii.eqb y (Strings.upperByte x))
  || (Strings.isLower y && Ascii.eqb x (Strings.upperByte y)).

(** Two identifiers that differ in letter case only. *)
Fixpoint differOnlyInCase (a b : string) : bool :=
  match a, b with
  | EmptyString, EmptyString => true
  | String x a', String y b' => sameLetter x y && differOnlyInCase a' b'
  | _, _ => false
  end.

(** ** Sample data for the concrete instances *)

(** A device: working directory [/], one song and one empty file on disk. *)
Definition sampleOS : OS :=
  {| Getwd := Ok "/";
     Stat := λ p,
       if String.eqb p "/sdcard/Music/song.flac" then Ok {| IsDir := false; Size := 4096 |}
       else if String.eqb p "/sdcard/Music/empty.flac" then Ok {| IsDir := false; Size := 0 |}
       else if String.eqb p "/sdcard/Music" then Ok {| IsDir := true; Size := 4096 |}
       else Err ("stat " +:+ p +:+ ": no such file or directory");
     Walk := λ root,
       if String.eqb root "/sdcard/Music" then
         [ {| walkPath := "/sdcard/Music"; walkInfo := Ok {| IsDir := true; Size := 4096 |} |};
           {| walkPath := "/sdcard/Music/empty.flac"; walkInfo := Ok {| IsDir := false; Size := 0 |} |};
           {| walkPath := "/sdcard/Music/song.flac"; walkInfo := Ok {| IsDir := false; Size := 4096 |} |} ]
       else [] |}.

(** An extension with the file capability and one without it. *)
Definition sampleRuntime : ExtensionRuntime :=
  {| extensionID := "ext";
     manifest := {| Permissions := {| File := true |} |};
     dataDir := "/data/extensions/ext" |}.

Definition sampleRuntimeNoFile : ExtensionRuntime :=
  {| extensionID := "ext";
     manifest := {| Permissions := {| File := false |} |};
     dataDir := "/data/extensions/ext" |}.

(** Unicode tables that leave a string outside ASCII as it is; the
    instances below hold ASCII strings only. *)
Definition sampleUnicode : Unicode :=
  {| unicodeToUpper := λ s, s; unicodeToLower := λ s, s |}.

(** A tag reader for the sample device. *)
Definition sampleReadMetadata (path : string) : result AudioMetadata string :=
  if String.eqb path "/sdcard/Music/song.flac" then Ok {| ISRC := "usum71703861" |}
  else Err "not a FLAC file".

(** Collaborators for the instances: the cover of one URL downloads, the
    lyrics sources fail; the Tidal search knows one recording. *)
Definition sampleFetchers : Fetchers :=
  {| downloadCoverToMemory := λ url _,
       if String.eqb url "https://i.scdn.co/image/cover" then Ok "JFIF-bytes"
       else Err "cover download failed";
     FetchLyricsAllSources := λ _ _ _ _, Err "lyrics not found in any source";
     convertToLRCWithMetadata := λ lyrics trackName artistName,
       "[ti:" +:+ trackName +:+ "] [ar:" +:+ artistName +:+ "] "
         +:+ String.concat " " (Lines lyrics) |}.

Definition sampleFetchersWithLyrics : Fetchers :=
  {| downloadCoverToMemory := λ _ _, Err "cover download failed";
     FetchLyricsAllSources := λ _ _ _ _, Ok (Some {| Lines := ["first line"; "second line"] |});
     convertToLRCWithMetadata := convertToLRCWithMetadata sampleFetchers |}.

Definition sampleResolvers : Resolvers :=
  {| TidalSearchTrackByISRC := λ isrc,
       if String.eqb isrc "USUM71703861" then Ok (Some 11) else Err "track not found";
     QobuzSearchTrackByISRC := λ _, Err "track not found";
     CheckTrackAvailability := λ _ _, Err "request failed" |}.

Definition sampleRequest : PreWarmCacheRequest.t :=
  {| PreWarmCacheRequest.ISRC := "USUM71703861";
     PreWarmCacheRequest.TrackName := "Song";
     PreWarmCacheRequest.ArtistName := "Artist";
     PreWarmCacheRequest.SpotifyID := "4uLU6hMCjMI75M1A2tKUQC";
     PreWarmCacheRequest.Service := "tidal" |}.

(** The list [[sampleRequest]] as the host submits it, in JSON. *)
Definition quoted (s : string) : string :=
  String (ascii_of_nat 34) s +:+ String (ascii_of_nat 34) "".

Definition jsonField (name val : string) : string :=
  quoted name +:+ ":" +:+ quoted val.

Definition sampleTracksJSON : string :=
  "[{" +:+ String.concat ","
    [jsonField "ISRC" "USUM71703861"; jsonField "TrackName" "Song";
     jsonField "ArtistName" "Artist"; jsonField "SpotifyID" "4uLU6hMCjMI75M1A2tKUQC";
     jsonField "Service" "tidal"] +:+ "}]".

(** * Further parts of the backend *)

(** ** The track-id cache: the shared shape of the setters *)

(** The test [SetTidal], [SetQobuz] and [SetAmazon] make before they sweep
    the expired entries. *)
Definition cleanupDue (now : Time.Time) (c : TrackIDCache) : bool :=
  (0 <? cleanupInterval c)
  && (Time.IsZero (lastCleanup c) || (cleanupInterval c <=? Time.Sub now (lastCleanup c))).

(** What the three setters have in common: an entry is stored under the
    identifier, then the sweep runs when it is due. *)
Definition storeEntry (now : Time.Time) (isrc : string) (entry : TrackIDCacheEntry)
    (c : TrackIDCache) : TrackIDCache :=
  cleanupIfDue now (withCache c (<[isrc := entry]> (cache c))).

(** The entries the setters store, from the entry they found. *)
Definition tidalEntry (trackID : Z) (old : TrackIDCacheEntry) (expiry : Time.Time) :=
  {| TidalTrackID := trackID; QobuzTrackID := QobuzTrackID old;
     AmazonTrackID := AmazonTrackID old; ExpiresAt := expiry |}.

Definition qobuzEntry (trackID : Z) (old : TrackIDCacheEntry) (expiry : Time.Time) :=
  {| TidalTrackID := TidalTrackID old; QobuzTrackID := trackID;
     AmazonTrackID := AmazonTrackID old; ExpiresAt := expiry |}.

Definition amazonEntry (trackID : string) (old : TrackIDCacheEntry) (expiry : Time.Time) :=
  {| TidalTrackID := TidalTrackID old; QobuzTrackID := QobuzTrackID old;
     AmazonTrackID := trackID; ExpiresAt := expiry |}.

(** A cache that [c'] may be after one of the setters ran on [c]. *)
Definition afterSetter (now : Time.Time) (isrc : string) (c c' : TrackIDCache) : Prop :=
  (∃ v, c' = SetTidal now isrc v c)
  ∨ (∃ v, c' = SetQobuz now isrc v c)
  ∨ (∃ v, c' = SetAmazon now isrc v c).

(** One write to the cache, by any of the three setters. *)
Inductive CacheWrite :=
| WriteTidal (trackID : Z)
| WriteQobuz (trackID : Z)
| WriteAmazon (trackID : string).

Definition applyWrite (now : Time.Time) (isrc : string) (w : CacheWrite)
    (c : TrackIDCache) : TrackIDCache :=
  match w with
  | WriteTidal trackID => SetTidal now isrc trackID c
  | WriteQobuz trackID => SetQobuz now isrc trackID c
  | WriteAmazon trackID => SetAmazon now isrc trackID c
  end.

(** The entry of an identifier is absent or has not expired. *)
Definition notExpired (now : Time.Time) (isrc : string) (c : TrackIDCache) : Prop :=
  ∀ entry, cache c !! isrc = Some entry → Time.After now (ExpiresAt entry) = false.

(** The entry a write stores, from the entry it finds. *)
Definition writtenEntry (w : CacheWrite) (old : TrackIDCacheEntry) (expiry : Time.Time) :=
  match w with
  | WriteTidal v => tidalEntry v old expiry
  | WriteQobuz v => qobuzEntry v old expiry
  | WriteAmazon v => amazonEntry v old expiry
  end.

(** ** The ISRC file index: the batch existence check *)

(** The anonymous struct [CheckFilesExistParallel] decodes its tracks to. *)
Module ExistenceTrack.
Record t := {
  ISRC : string;
  TrackName : string;
  ArtistName : string
}.
End ExistenceTrack.

Module FileExistenceResult.
Record t := {
  ISRC : string;
  Exists : bool;
  FilePath : string;
  TrackName : string;
  ArtistName : string
}.
End FileExistenceResult.

(** [encoding/json] at the two types the check uses it at. *)
Record JSONCodec := {
  UnmarshalTracks : string → result (list ExistenceTrack.t) string;
  MarshalResults : list FileExistenceResult.t → result string string
}.

(** The body of the goroutine started for one track: the result it writes
    into its own slot of [results]. *)
Definition existenceOf `{Unicode} (isrcIdx : ISRCIndex) (t : ExistenceTrack.t)
    : FileExistenceResult.t :=
  let result :=
    {| FileExistenceResult.ISRC := ExistenceTrack.ISRC t;
       FileExistenceResult.Exists := false;
       FileExistenceResult.FilePath := "";
       FileExistenceResult.TrackName := ExistenceTrack.TrackName t;
       FileExistenceResult.ArtistName := ExistenceTrack.ArtistName t |} in
  if negb (String.eqb (ExistenceTrack.ISRC t) "") then
    let '(filePath, exists_) := Index.lookup isrcIdx (ExistenceTrack.ISRC t) in
    if exists_ then
      {| FileExistenceResult.ISRC := FileExistenceResult.ISRC result;
         FileExistenceResult.Exists := true;
         FileExistenceResult.FilePath := filePath;
         FileExistenceResult.TrackName := FileExistenceResult.TrackName result;
         FileExistenceResult.ArtistName := FileExistenceResult.ArtistName result |}
    else result
  else result.

(** [CheckFilesExistParallel]: slot [i] of [results] is written by the
    goroutine of track [i] and by no other. *)
Definition CheckFilesExistParallel `{Unicode} (now : Time.Time) (os : OS)
    (readMetadata : string → result AudioMetadata string) (J : JSONCodec)
    (dir tracksJSON : string) (isrcIndexCache : gmap string ISRCIndex)
    : result string string * gmap string ISRCIndex :=
  match UnmarshalTracks J tracksJSON with
  | Err e => (Err ("failed to parse tracks JSON: " +:+ e), isrcIndexCache)
  | Ok tracks =>
      let '(isrcIdx, cache1) := GetISRCIndex now os readMetadata dir isrcIndexCache in
      let results := map (existenceOf isrcIdx) tracks in
      match MarshalResults J results with
      | Err e => (Err ("failed to marshal results: " +:+ e), cache1)
      | Ok resultJSON => (Ok resultJSON, cache1)
      end
  end.

(** The key under which the callback of [buildISRCIndex] stores a file the
    walk meets, when it stores it. *)
Definition indexedKey `{Unicode} (readMetadata : string → result AudioMetadata string)
    (e : WalkEntry) : option string :=
  match walkInfo e with
  | Err _ => None
  | Ok info =>
      if IsDir info then None
      else if negb (String.eqb (Strings.ToLower (Filepath.Ext (walkPath e))) ".flac") then None
      else match readMetadata (walkPath e) with
           | Err _ => None
           | Ok metadata =>
               if String.eqb (ISRC metadata) "" then None
               else Some (Strings.ToUpper (ISRC metadata))
           end
  end.

(** ** The cache pre-warmer: vocabulary *)

(** The remote lookup the goroutine of a request makes, by the service the
    request names; none for any other service. *)
Definition lookupOf (r : PreWarmCacheRequest.t) : option ResolverCall :=
  let service := PreWarmCacheRequest.Service r in
  if String.eqb service "tidal" then Some (CallTidal (PreWarmCacheRequest.ISRC r))
  else if String.eqb service "qobuz" then Some (CallQobuz (PreWarmCacheRequest.ISRC r))
  else if String.eqb service "amazon" then
    Some (CallSongLink (PreWarmCacheRequest.SpotifyID r) (PreWarmCacheRequest.ISRC r))
  else None.

(** The write a request ends in when its lookup succeeds: the service is
    one of the three and its lookup finds the recording. *)
Definition resolvedWrite (R : Resolvers) (r : PreWarmCacheRequest.t) : option CacheWrite :=
  let service := PreWarmCacheRequest.Service r in
  let isrc := PreWarmCacheRequest.ISRC r in
  if String.eqb service "tidal" then
    match TidalSearchTrackByISRC R isrc with Ok (Some id) => Some (WriteTidal id) | _ => None end
  else if String.eqb service "qobuz" then
    match QobuzSearchTrackByISRC R isrc with Ok (Some id) => Some (WriteQobuz id) | _ => None end
  else if String.eqb service "amazon" then
    match CheckTrackAvailability R (PreWarmCacheRequest.SpotifyID r) isrc with
    | Ok (Some availability) =>
        if Amazon availability then Some (WriteAmazon (AmazonURL availability)) else None
    | _ => None
    end
  else None.

(** The identifier has an entry that does not expire before [t]. *)
Definition liveUntil (t : Time.Time) (isrc : string) (c : TrackIDCache) : Prop :=
  ∃ entry, cache c !! isrc = Some entry ∧ t ≤ ExpiresAt entry.

(** ** The script execution controller: what a schedule did, further *)

(** What [RunString] returned when it returned, and whether the deadline
    and the grace period ended. *)
Record Completion := {
  returned : option Exec.result;
  deadlineFired : bool;
  graceFired : bool
}.

Definition noCompletion : Completion :=
  {| returned := None; deadlineFired := false; graceFired := false |}.

Definition recordCompletion (ev : Exec.Event) (h : Completion) : Completion :=
  match ev with
  | Exec.RunReturns val e =>
      {| returned := Some {| Exec.value := val; Exec.err := e |};
         deadlineFired := deadlineFired h; graceFired := graceFired h |}
  | Exec.DeadlineFires =>
      {| returned := returned h; deadlineFired := true; graceFired := graceFired h |}
  | Exec.GraceElapses =>
      {| returned := returned h; deadlineFired := deadlineFired h; graceFired := true |}
  | _ => h
  end.

Fixpoint completion (s : Exec.State) (h : Completion) (evs : list Exec.Event) : Completion :=
  match evs with
  | [] => h
  | ev :: rest =>
      match Exec.step s ev with
      | Some s' => completion s' (recordCompletion ev h) rest
      | None => h
      end
  end.

(** What the second [select] makes of a result it receives. *)
Definition afterDeadline (sent : Exec.result) : Exec.result :=
  match Exec.err sent with
  | Some e => {| Exec.value := None; Exec.err := Some e |}
  | None => {| Exec.value := None; Exec.err := Some Exec.timeoutError |}
  end.

(** The invariant that goes with [completion]. *)
Definition completionInv (s : Exec.State) (h : Completion) : Prop :=
  deadlineFired h = Exec.interrupted s
  ∧ match Exec.caller s with
    | Exec.AtSelect => Exec.interrupted s = false ∧ graceFired h = false
    | Exec.AtGraceSelect => Exec.interrupted s = true ∧ graceFired h = false
    | Exec.Returned res =>
        (graceFired h = true → res = Exec.forcedResult ∧ Exec.interrupted s = true)
        ∧ (Exec.interrupted s = true → Exec.value res = None ∧ is_Some (Exec.err res))
    end
  ∧ match Exec.goroutine s with
    | Exec.Exited =>
        ∀ sent, returned h = Some sent →
          (Exec.resultCh s = Some sent
           ∧ ∀ res, Exec.caller s = Exec.Returned res → graceFired h = true)
          ∨ (Exec.resultCh s = None ∧ graceFired h = false
             ∧ Exec.caller s
               = Exec.Returned (if Exec.interrupted s then afterDeadline sent else sent))
    | _ =>
        returned h = None ∧ Exec.resultCh s = None
        ∧ ∀ res, Exec.caller s = Exec.Returned res → graceFired h = true
    end.

(** * Properties *)

(** ** [path/filepath] *)

(** Test vectors of [Clean] (results of the Go implementation). *)
Example Clean_vectors :
  map Filepath.Clean
    ["abc"; "abc/def"; "a/b/c"; "."; ".."; "../.."; "../../abc"; "/abc"; "/"; "";
     "abc/"; "abc/def/"; "a/b/c/"; "./"; "../"; "../../"; "/abc/";
     "abc//def//ghi"; "//abc"; "///abc"; "//abc//"; "abc//";
     "abc/./def"; "/./abc/def"; "abc/.";
     "abc/def/ghi/../jkl"; "abc/def/../ghi/../jkl"; "abc/def/.."; "abc/def/../..";
     "/abc/def/../.."; "abc/def/../../.."; "/abc/def/../../..";
     "abc/def/../../../ghi/jkl/../../../mno"; "/../abc";
     "abc/./../def"; "abc//./../def"; "abc/../../././../def"]
  = ["abc"; "abc/def"; "a/b/c"; "."; ".."; "../.."; "../../abc"; "/abc"; "/"; ".";
     "abc"; "abc/def"; "a/b/c"; "."; ".."; "../.."; "/abc";
     "abc/def/ghi"; "/abc"; "/abc"; "/abc"; "abc";
     "abc/def"; "/abc/def"; "abc";
     "abc/def/jkl"; "abc/jkl"; "abc"; ".";
     "/"; ".."; "/";
     "../../mno"; "/abc";
     "def"; "def"; "../../def"].
Proof. reflexivity. Qed.

Example Join_Ext_vectors :
  map Filepath.Join [["a"; "b"]; ["a"; ""]; [""; "b"]; ["/"; "a"]; ["a/"; "b"]; [""; ""]; ["/data/ext"; "../x"]]
  = ["a/b"; "a"; "b"; "/a"; "a/b"; ""; "/data/x"]
  ∧ map Filepath.Ext ["path.go"; "path.pb.go"; "a.dir/b"; "a.dir/b.go"; "a.dir/"; "song.FLAC"; ""]
  = [".go"; ".go"; ""; ".go"; ""; ".FLAC"; ""].
Proof. split; reflexivity. Qed.

Section CleanFacts.

Import Filepath.

Lemma elements_nonempty path : elements path ≠ [].
Proof. destruct path as [|c rest]; simpl; [done|]. destruct (IsPathSeparator c); [done|]. by destruct (elements rest). Qed.

Lemma elements_noSep path : forallb noSep (elements path) = true.
Proof.
  induction path as [|c rest IH]; simpl; [done|].
  destruct (IsPathSeparator c) eqn:Hc; simpl; [done|].
  destruct (elements rest) as [|e es]; simpl in *; rewrite ?Hc; simpl; done.
Qed.

Lemma elements_single e : noSep e = true → elements e = [e].
Proof.
  induction e as [|c rest IH]; simpl; [done|].
  intros [Hc Hr]%andb_true_iff. apply negb_true_iff in Hc. rewrite Hc, (IH Hr). done.
Qed.

Lemma elements_app_sep e rest :
  noSep e = true → elements (e +:+ String "/" rest) = e :: elements rest.
Proof.
  induction e as [|c e' IH]; simpl; [done|].
  intros [Hc Hr]%andb_true_iff. apply negb_true_iff in Hc. rewrite Hc, (IH Hr). done.
Qed.

Lemma elements_concat es :
  es ≠ [] → forallb noSep es = true → elements (Strings.Join es "/") = es.
Proof.
  unfold Strings.Join.
  induction es as [|e es IH]; [done|]. intros _ [He Hes]%andb_true_iff.
  destruct es as [|e' es'].
  - simpl. by apply elements_single.
  - change (String.concat "/" (e :: e' :: es'))
      with (e +:+ String "/" (String.concat "/" (e' :: es'))).
    rewrite elements_app_sep by done. f_equal. by apply IH.
Qed.

Lemma isName_eqbs e :
  isName e = true →
  String.eqb e "" = false ∧ String.eqb e "." = false ∧ String.eqb e ".." = false ∧ noSep e = true.
Proof.
  unfold isName. rewrite !andb_true_iff, !negb_true_iff. tauto.
Qed.

(** Names are written as they are, whatever was written before. *)
Lemma cleanLoop_names rooted names : ∀ out,
  forallb isName names = true → cleanLoop rooted out names = (rev out ++ names)%list.
Proof.
  induction names as [|e es IH]; intros out H; simpl in *.
  - by rewrite app_nil_r.
  - apply andb_true_iff in H as [He Hes].
    destruct (isName_eqbs _ He) as (-> & -> & -> & _).
    rewrite IH by done. simpl. by rewrite <- app_assoc.
Qed.

(** Leading [..] elements of a path that is not rooted are written too. *)
Lemma cleanLoop_dots dots : ∀ out names,
  forallb isDotDot out = true → forallb isDotDot dots = true → forallb isName names = true →
  cleanLoop false out (dots ++ names) = (rev out ++ dots ++ names)%list.
Proof.
  induction dots as [|d ds IH]; intros out names Hout Hd Hn; simpl in *.
  - by apply cleanLoop_names.
  - apply andb_true_iff in Hd as [Hd Hds]. unfold isDotDot in Hd.
    apply String.eqb_eq in Hd. subst d. simpl.
    destruct out as [|o out'].
    + rewrite IH by done. done.
    + simpl in Hout. apply andb_true_iff in Hout as [Ho Hout']. unfold isDotDot in Ho.
      rewrite Ho. rewrite IH; [|simpl; unfold isDotDot at 1; by rewrite Ho|done|done].
      simpl. by rewrite <- !app_assoc.
Qed.

Lemma cleanLoop_shape rooted es : ∀ out,
  stackOK rooted out → forallb noSep es = true →
  ∃ dots names, cleanLoop rooted out es = (dots ++ names)%list
    ∧ forallb isDotDot dots = true ∧ forallb isName names = true
    ∧ (rooted = true → dots = []).
Proof.
  induction es as [|e es IH]; intros out (names & dots & -> & Hn & Hd & Hr) Hes; simpl in *.
  - exists (rev dots), (rev names). rewrite rev_app_distr.
    rewrite !forallb_forall in *. repeat split.
    + intros x Hx. apply Hd. by apply in_rev.
    + intros x Hx. apply Hn. by apply in_rev.
    + intros H. by rewrite (Hr H).
  - apply andb_true_iff in Hes as [He Hes].
    destruct (String.eqb e "") eqn:E1; [apply IH; [by exists names, dots|done]|].
    destruct (String.eqb e ".") eqn:E2; [apply IH; [by exists names, dots|done]|].
    destruct (String.eqb e "..") eqn:E3.
    + destruct names as [|n names']; simpl in *.
      * destruct dots as [|d dots'].
        -- destruct rooted; apply IH; try done.
           ++ by exists [], [].
           ++ exists [], [".."]. by repeat split.
        -- simpl in Hd. apply andb_true_iff in Hd as [Hd1 Hd2]. unfold isDotDot in Hd1.
           rewrite Hd1. apply IH; [|done].
           exists [], (".." :: d :: dots'). repeat split; simpl; try done.
           ++ unfold isDotDot at 1. by rewrite Hd1, Hd2.
           ++ intros H. by specialize (Hr H).
      * apply andb_true_iff in Hn as [Hn1 Hn2].
        destruct (isName_eqbs _ Hn1) as (_ & _ & -> & _).
        apply IH; [|done]. by exists names', dots.
    + apply IH; [|done]. exists (e :: names), dots. repeat split; try done.
      simpl. rewrite Hn. unfold isName. by rewrite He, E1, E2, E3.
Qed.

Lemma IsAbs_cons c rest : IsAbs (String c rest) = IsPathSeparator c.
Proof.
  unfold IsAbs, Strings.HasPrefix, IsPathSeparator. cbn [String.prefix].
  destruct (ascii_dec "/" c) as [<-|Hne]; [by destruct rest|].
  symmetry. apply Ascii.eqb_neq. congruence.
Qed.

Lemma Clean_rooted path : IsAbs path = true → IsAbs (Clean path) = true.
Proof. intros H. unfold Clean. rewrite H. exact (IsAbs_cons "/" _). Qed.

Lemma Clean_not_rooted path : IsAbs path = false → IsAbs (Clean path) = false.
Proof.
  intros H. unfold Clean. rewrite H.
  destruct (cleanLoop_shape false (elements path) [])
    as (dots & names & Heq & Hd & Hn & _); [by exists [], []|apply elements_noSep|].
  rewrite Heq.
  assert (Hfirst : ∀ e es, (forallb isDotDot [e] = true ∨ forallb isName [e] = true) →
                    IsAbs (Strings.Join (e :: es) "/") = false).
  { intros e es He. unfold Strings.Join.
    assert (∃ c r, e = String c r ∧ IsPathSeparator c = false) as (c & r & -> & Hc).
    { simpl in He. rewrite !andb_true_r in He. destruct He as [He|He].
      - apply String.eqb_eq in He. subst e. by eexists _, _.
      - destruct (isName_eqbs _ He) as (E & _ & _ & Hs).
        destruct e as [|c r]; [done|]. simpl in Hs. apply andb_true_iff in Hs as [Hs _].
        apply negb_true_iff in Hs. by eexists _, _. }
    destruct es as [|e' es']; [cbn [String.concat]; by rewrite IsAbs_cons|].
    change (String.concat "/" (String c r :: e' :: es'))
      with (String c (r +:+ String "/" (String.concat "/" (e' :: es')))).
    by rewrite IsAbs_cons. }
  destruct dots as [|d ds]; simpl in *.
  - destruct names as [|n ns]; [done|]. apply Hfirst. right. simpl in *.
    apply andb_true_iff in Hn as [-> _]. done.
  - apply Hfirst. left. simpl. apply andb_true_iff in Hd as [-> _]. done.
Qed.

(** [Clean] is idempotent. *)
Lemma Clean_idempotent path : Clean (Clean path) = Clean path.
Proof.
  destruct (IsAbs path) eqn:Habs.
  - pose proof (Clean_rooted _ Habs) as Habs'.
    unfold Clean at 1. rewrite Habs'. unfold Clean. rewrite Habs.
    destruct (cleanLoop_shape true (elements path) [])
      as (dots & names & Heq & Hd & Hn & Hr); [by exists [], []|apply elements_noSep|].
    rewrite (Hr eq_refl) in Heq. simpl in Heq. rewrite Heq.
    f_equal. f_equal.
    change ("/" +:+ Strings.Join names "/") with (String "/" (Strings.Join names "/")).
    cbn [elements]. change (IsPathSeparator "/") with true. cbn iota.
    cbn [cleanLoop String.eqb]. 
    destruct names as [|n ns]; [done|].
    rewrite elements_concat; [|done|].
    + by rewrite cleanLoop_names.
    + rewrite forallb_forall in *. intros x Hx. by destruct (isName_eqbs _ (Hn x Hx)) as (_ & _ & _ & ?).
  - pose proof (Clean_not_rooted _ Habs) as Habs'.
    unfold Clean at 1. rewrite Habs'. unfold Clean. rewrite Habs.
    destruct (cleanLoop_shape false (elements path) [])
      as (dots & names & Heq & Hd & Hn & _); [by exists [], []|apply elements_noSep|].
    rewrite Heq.
    destruct (dots ++ names)%list as [|e es] eqn:Hout; [done|].
    rewrite elements_concat; [|done|].
    + rewrite <- Hout. rewrite (cleanLoop_dots dots [] names) by done. simpl.
      rewrite Hout. done.
    + rewrite <- Hout. rewrite forallb_app. apply andb_true_iff. split.
      * rewrite forallb_forall in *. intros x Hx. specialize (Hd x Hx).
        unfold isDotDot in Hd. apply String.eqb_eq in Hd. by subst x.
      * rewrite forallb_forall in *. intros x Hx. by destruct (isName_eqbs _ (Hn x Hx)) as (_ & _ & _ & ?).
Qed.

End CleanFacts.

(** ** The sandbox: [validatePath] and [fileExists] *)

Lemma isPathInAllowedDirs_spec (dirs : list string) (absPath : string) :
  isPathInAllowedDirs dirs absPath = true
  ↔ ∃ d, d ∈ dirs ∧ Strings.HasPrefix absPath d = true.
Proof.
  induction dirs as [|d0 rest IH]; simpl.
  - split; [done|]. intros (d & Hd & _). by apply elem_of_nil in Hd.
  - destruct (Strings.HasPrefix absPath d0) eqn:Hp.
    + split; [|done]. intros _. exists d0. split; [apply list_elem_of_here|done].
    + rewrite IH. split.
      * intros (d & Hd & Hpre). exists d. split; [by apply list_elem_of_further|done].
      * intros (d & Hd & Hpre). apply elem_of_cons in Hd as [->|Hd]; [congruence|].
        by exists d.
Qed.

Lemma Abs_of_absolute getwd path :
  Filepath.IsAbs path = true → Filepath.Abs getwd path = Ok (Filepath.Clean path).
Proof. intros H. unfold Filepath.Abs. by rewrite H. Qed.

(** What [validatePath] does with a relative path: the cleaned path is
    joined under the data directory and made absolute, and the call fails
    with the outside-sandbox error exactly when the absolute data directory
    is not a string prefix of the result. *)
Lemma validatePath_relative os dirs r path absPath absDataDir :
  File (Permissions (manifest r)) = true →
  Filepath.IsAbs path = false →
  Filepath.Abs (Getwd os) (Filepath.Join [dataDir r; Filepath.Clean path]) = Ok absPath →
  Filepath.Abs (Getwd os) (dataDir r) = Ok absDataDir →
  validatePath os dirs r path =
    if Strings.HasPrefix absPath absDataDir then Ok absPath
    else Err (ErrOutsideSandbox path).
Proof.
  intros Hf Hrel Habs Hdir. unfold validatePath.
  rewrite Hf, (Clean_not_rooted _ Hrel), Habs, Hdir. simpl.
  by destruct (Strings.HasPrefix absPath absDataDir).
Qed.

(** A path that climbs out of the data directory onto other names is
    refused as a traversal. *)
Example validatePath_rejects_climb :
  validatePath sampleOS [] sampleRuntime "../../../etc/passwd"
    = Err (ErrOutsideSandbox "../../../etc/passwd")
  ∧ PathError_kind (ErrOutsideSandbox "../../../etc/passwd") = PathTraversal
  ∧ validatePath sampleOS [] sampleRuntime "cache/../covers/a.jpg"
    = Ok "/data/extensions/ext/covers/a.jpg".
Proof. repeat split; reflexivity. Qed.

(** C1, the code at an input the claim covers. The data directory is
    [/data/extensions/ext]; the relative path [../ext-other/secrets.db]
    holds a [..] segment and resolves to
    [/data/extensions/ext-other/secrets.db], which is not inside the data
    directory. [validatePath] accepts it and returns the resolved path,
    where the claim has it fail with a PathTraversal error: the check is a
    prefix test on strings, and the name of the data directory is a string
    prefix of the name of its sibling. *)
Theorem validatePath_accepts_sibling_of_dataDir :
  let path := "../ext-other/secrets.db" in
  let resolved := "/data/extensions/ext-other/secrets.db" in
  Filepath.IsAbs path = false
  ∧ In ".." (Filepath.elements path)
  ∧ dataDir sampleRuntime = "/data/extensions/ext"
  ∧ insideDirectory (dataDir sampleRuntime) resolved = false
  ∧ validatePath sampleOS [] sampleRuntime path = Ok resolved.
Proof. cbv zeta. repeat split; try reflexivity. simpl. tauto. Qed.

(** C2, the claim as stated fails. Registered through
    [SetAllowedDownloadDirs], the directory [/sdcard/Music/] is stored as
    written; its resolved form [/sdcard/Music] is a prefix of the resolved
    form of the argument [/sdcard/Music], yet [validatePath] refuses the
    argument, because the stored string is the one it compares with. *)
Lemma validatePath_compares_stored_directory :
  let dirs := SetAllowedDownloadDirs ["/sdcard/Music/"] [] in
  let path := "/sdcard/Music" in
  Filepath.IsAbs path = true
  ∧ File (Permissions (manifest sampleRuntime)) = true
  ∧ (∃ d absDir absPath,
       d ∈ dirs
       ∧ Filepath.Abs (Getwd sampleOS) d = Ok absDir
       ∧ Filepath.Abs (Getwd sampleOS) path = Ok absPath
       ∧ Strings.HasPrefix absPath absDir = true)
  ∧ validatePath sampleOS dirs sampleRuntime path = Err ErrAbsoluteNotAllowed.
Proof.
  cbv zeta. repeat split; try reflexivity.
  exists "/sdcard/Music/", "/sdcard/Music", "/sdcard/Music".
  repeat split; try reflexivity. apply list_elem_of_here.
Qed.

(** C2, as amended. For an absolute path argument and an extension with
    the file capability, [validatePath] succeeds if and only if some entry
    of the list of allowed directories, as the list stores it, is a string
    prefix of the resolved absolute form of the argument; it then returns
    that form, and otherwise fails with an error of kind PermissionDenied.
    [AddAllowedDownloadDir] stores the resolved absolute form of its
    argument. *)
Theorem validatePath_absolute os (dirs : list string) r path :
  File (Permissions (manifest r)) = true →
  Filepath.IsAbs path = true →
  ∃ absPath,
    Filepath.Abs (Getwd os) path = Ok absPath
    ∧ (isOk (validatePath os dirs r path) = true
       ↔ ∃ d, d ∈ dirs ∧ Strings.HasPrefix absPath d = true)
    ∧ (validatePath os dirs r path = Ok absPath
       ∨ ∃ e, validatePath os dirs r path = Err e ∧ PathError_kind e = PermissionDenied)
    ∧ (∀ dir absDir, Filepath.Abs (Getwd os) dir = Ok absDir →
         AddAllowedDownloadDir os dir dirs = (dirs ++ [absDir])%list).
Proof.
  intros Hf Habs. exists (Filepath.Clean path).
  pose proof (Clean_rooted _ Habs) as Habs'.
  assert (Hv : validatePath os dirs r path =
               if isPathInAllowedDirs dirs (Filepath.Clean path)
               then Ok (Filepath.Clean path) else Err ErrAbsoluteNotAllowed).
  { unfold validatePath. rewrite Hf, Habs'. simpl.
    by rewrite (Abs_of_absolute _ _ Habs'), Clean_idempotent. }
  split; [by apply Abs_of_absolute|].
  split; [|split].
  - rewrite <- isPathInAllowedDirs_spec, Hv.
    by destruct (isPathInAllowedDirs dirs (Filepath.Clean path)).
  - rewrite Hv. destruct (isPathInAllowedDirs dirs (Filepath.Clean path)); [by left|].
    right. by exists ErrAbsoluteNotAllowed.
  - intros dir absDir Hd. unfold AddAllowedDownloadDir. by rewrite Hd.
Qed.

Lemma validatePath_absolute_witness :
  let dirs := AddAllowedDownloadDir sampleOS "/sdcard/Music/" [] in
  let path := "/sdcard/Download/../Music/song.flac" in
  File (Permissions (manifest sampleRuntime)) = true
  ∧ Filepath.IsAbs path = true
  ∧ ∃ absPath,
      Filepath.Abs (Getwd sampleOS) path = Ok absPath
      ∧ (isOk (validatePath sampleOS dirs sampleRuntime path) = true
         ↔ ∃ d, d ∈ dirs ∧ Strings.HasPrefix absPath d = true)
      ∧ (validatePath sampleOS dirs sampleRuntime path = Ok absPath
         ∨ ∃ e, validatePath sampleOS dirs sampleRuntime path = Err e
                ∧ PathError_kind e = PermissionDenied)
      ∧ (∀ dir absDir, Filepath.Abs (Getwd sampleOS) dir = Ok absDir →
           AddAllowedDownloadDir sampleOS dir dirs = (dirs ++ [absDir])%list).
Proof.
  cbv zeta. split; [reflexivity|]. split; [reflexivity|].
  apply (validatePath_absolute sampleOS
           (AddAllowedDownloadDir sampleOS "/sdcard/Music/" []) sampleRuntime
           "/sdcard/Download/../Music/song.flac"); reflexivity.
Defined.

(** C10. [fileExists] answers with a plain boolean for every call. The
    answer is [false] when there is no argument, when [validatePath] fails
    (the extension lacks the file capability, or the path is refused) and
    when [os.Stat] fails on the validated path; it is [true] in the one
    remaining case. A refused path and a missing file give the same
    answer. *)
Theorem fileExists_plain_boolean os dirs r (arguments : list string) :
  (∃ b, fileExists os dirs r arguments = VBool b)
  ∧ (arguments = [] → fileExists os dirs r arguments = VBool false)
  ∧ (∀ path rest e, arguments = path :: rest →
       validatePath os dirs r path = Err e →
       fileExists os dirs r arguments = VBool false)
  ∧ (∀ path rest fullPath e, arguments = path :: rest →
       validatePath os dirs r path = Ok fullPath → Stat os fullPath = Err e →
       fileExists os dirs r arguments = VBool false)
  ∧ (∀ path rest fullPath info, arguments = path :: rest →
       validatePath os dirs r path = Ok fullPath → Stat os fullPath = Ok info →
       fileExists os dirs r arguments = VBool true).
Proof.
  repeat split.
  - unfold fileExists. destruct arguments as [|path rest]; [by eexists|].
    destruct (validatePath os dirs r path); by eexists.
  - by intros ->.
  - intros path rest e -> Hv. simpl. by rewrite Hv.
  - intros path rest fullPath e -> Hv Hs. simpl. by rewrite Hv, Hs.
  - intros path rest fullPath info -> Hv Hs. simpl. by rewrite Hv, Hs.
Qed.

(** The same answer for four different causes, and the sibling
    [fileGetSize] telling them apart. *)
Example fileExists_same_answer :
  fileExists sampleOS ["/sdcard/Music"] sampleRuntimeNoFile ["/sdcard/Music/song.flac"] = VBool false
  ∧ fileExists sampleOS ["/sdcard/Music"] sampleRuntime ["/etc/passwd"] = VBool false
  ∧ fileExists sampleOS ["/sdcard/Music"] sampleRuntime ["../../../etc/passwd"] = VBool false
  ∧ fileExists sampleOS ["/sdcard/Music"] sampleRuntime ["/sdcard/Music/gone.flac"] = VBool false
  ∧ fileExists sampleOS ["/sdcard/Music"] sampleRuntime ["/sdcard/Music/song.flac"] = VBool true
  ∧ fileGetSize sampleOS ["/sdcard/Music"] sampleRuntime ["/etc/passwd"]
    = VObject [("success", VBool false);
               ("error", VString (PathError_Error ErrAbsoluteNotAllowed))]
  ∧ fileGetSize sampleOS ["/sdcard/Music"] sampleRuntime ["/sdcard/Music/gone.flac"]
    = VObject [("success", VBool false);
               ("error", VString "stat /sdcard/Music/gone.flac: no such file or directory")].
Proof. repeat split; reflexivity. Qed.

Lemma fileExists_plain_boolean_witness :
  let dirs := ["/sdcard/Music"] in
  validatePath sampleOS dirs sampleRuntime "/etc/passwd" = Err ErrAbsoluteNotAllowed
  ∧ fileExists sampleOS dirs sampleRuntime ["/etc/passwd"] = VBool false
  ∧ validatePath sampleOS dirs sampleRuntime "/sdcard/Music/gone.flac" = Ok "/sdcard/Music/gone.flac"
  ∧ isOk (Stat sampleOS "/sdcard/Music/gone.flac") = false
  ∧ fileExists sampleOS dirs sampleRuntime ["/sdcard/Music/gone.flac"] = VBool false.
Proof.
  cbv zeta. split; [reflexivity|]. split.
  - apply (proj1 (proj2 (proj2
      (fileExists_plain_boolean sampleOS ["/sdcard/Music"] sampleRuntime ["/etc/passwd"])))
      "/etc/passwd" [] ErrAbsoluteNotAllowed); reflexivity.
  - split; [reflexivity|]. split; [reflexivity|].
    apply (proj1 (proj2 (proj2 (proj2
      (fileExists_plain_boolean sampleOS ["/sdcard/Music"] sampleRuntime
         ["/sdcard/Music/gone.flac"]))))
      "/sdcard/Music/gone.flac" [] "/sdcard/Music/gone.flac"
      "stat /sdcard/Music/gone.flac: no such file or directory"); reflexivity.
Defined.

(** ** The track-id cache *)

Section CacheFacts.

Implicit Types (c : TrackIDCache) (entry : TrackIDCacheEntry) (isrc : string).

Lemma After_Add_ttl now d : 0 ≤ d → Time.After now (Time.Add now d) = false.
Proof. intros Hd. unfold Time.After, Time.Add. apply Z.ltb_ge. lia. Qed.

Lemma After_mono now1 now2 t :
  now1 ≤ now2 → Time.After now1 t = true → Time.After now2 t = true.
Proof. unfold Time.After. rewrite !Z.ltb_lt. lia. Qed.

Lemma pruneExpiredLocked_lookup now c isrc :
  cache (pruneExpiredLocked now c) !! isrc =
  match cache c !! isrc with
  | Some entry => if Time.After now (ExpiresAt entry) then None else Some entry
  | None => None
  end.
Proof.
  unfold pruneExpiredLocked. simpl.
  destruct (cache c !! isrc) as [entry|] eqn:Hl.
  - destruct (Time.After now (ExpiresAt entry)) eqn:Ha.
    + apply map_lookup_filter_None. right. intros e He. simpl. congruence.
    + apply map_lookup_filter_Some. done.
  - apply map_lookup_filter_None. by left.
Qed.

(** The sweep keeps every entry that has not expired and adds none. *)
Lemma cleanupIfDue_lookup now c isrc :
  cache (cleanupIfDue now c) !! isrc = cache c !! isrc
  ∨ cache (cleanupIfDue now c) !! isrc = cache (pruneExpiredLocked now c) !! isrc.
Proof.
  unfold cleanupIfDue.
  destruct ((0 <? cleanupInterval c)
            && (Time.IsZero (lastCleanup c) || (cleanupInterval c <=? Time.Sub now (lastCleanup c))));
    [by right|by left].
Qed.

Lemma cleanupIfDue_keeps_live now c isrc entry :
  cache c !! isrc = Some entry → Time.After now (ExpiresAt entry) = false →
  cache (cleanupIfDue now c) !! isrc = Some entry.
Proof.
  intros Hl Ha. destruct (cleanupIfDue_lookup now c isrc) as [->| ->]; [done|].
  by rewrite pruneExpiredLocked_lookup, Hl, Ha.
Qed.

Lemma cleanupIfDue_ttl now c : ttl (cleanupIfDue now c) = ttl c.
Proof.
  unfold cleanupIfDue.
  by destruct ((0 <? cleanupInterval c)
            && (Time.IsZero (lastCleanup c) || (cleanupInterval c <=? Time.Sub now (lastCleanup c)))).
Qed.

(** Every operation leaves the TTL of the cache as [GetTrackIDCache] set it. *)
Lemma ttl_preserved now isrc c :
  (∀ v, ttl (SetTidal now isrc v c) = ttl c)
  ∧ (∀ v, ttl (SetQobuz now isrc v c) = ttl c)
  ∧ (∀ v, ttl (SetAmazon now isrc v c) = ttl c)
  ∧ ttl (Clear c) = ttl c
  ∧ (∀ now2, ttl (snd (Get now now2 isrc c)) = ttl c).
Proof.
  repeat split; intros; unfold SetTidal, SetQobuz, SetAmazon; rewrite ?cleanupIfDue_ttl; try done.
  unfold Get, Get_between, Get_rlocked, Get_locked.
  destruct (cache c !! isrc) as [e|]; [|done].
  destruct (Time.After now (ExpiresAt e)); [|done]. simpl.
  by destruct (Time.After now2 (ExpiresAt e)).
Qed.

(** C8. On an entry that is in the cache, each of [SetTidal], [SetQobuz]
    and [SetAmazon] leaves an entry that differs from it in the written
    catalog field and in the expiry time only: the field holds the written
    id, the expiry is the time of the write plus 30 minutes, and the two
    other catalog fields are as before. *)
Theorem Set_writes_own_field_and_expiry c (now : Time.Time) isrc entry :
  cache c !! isrc = Some entry →
  ttl c = ttl newTrackIDCache →
  (∀ trackID,
     cache (SetTidal now isrc trackID c) !! isrc =
       Some {| TidalTrackID := trackID;
               QobuzTrackID := QobuzTrackID entry;
               AmazonTrackID := AmazonTrackID entry;
               ExpiresAt := now + 30 * Time.Minute |})
  ∧ (∀ trackID,
     cache (SetQobuz now isrc trackID c) !! isrc =
       Some {| TidalTrackID := TidalTrackID entry;
               QobuzTrackID := trackID;
               AmazonTrackID := AmazonTrackID entry;
               ExpiresAt := now + 30 * Time.Minute |})
  ∧ (∀ trackID,
     cache (SetAmazon now isrc trackID c) !! isrc =
       Some {| TidalTrackID := TidalTrackID entry;
               QobuzTrackID := QobuzTrackID entry;
               AmazonTrackID := trackID;
               ExpiresAt := now + 30 * Time.Minute |}).
Proof.
  intros Hl Httl.
  assert (Hd : ttl c = 30 * Time.Minute) by (by rewrite Httl).
  repeat split; intros trackID;
    unfold SetTidal, SetQobuz, SetAmazon, entryOrNew; rewrite Hl, Hd;
    apply cleanupIfDue_keeps_live;
    try (simpl; apply lookup_insert_eq);
    simpl; apply After_Add_ttl; by vm_compute.
Qed.

Lemma Set_writes_own_field_and_expiry_witness :
  let c := SetQobuz 1000 "USUM71703861" 12 (SetTidal 500 "USUM71703861" 11 newTrackIDCache) in
  let entry := {| TidalTrackID := 11; QobuzTrackID := 12; AmazonTrackID := "";
                  ExpiresAt := 1000 + 30 * Time.Minute |} in
  cache c !! "USUM71703861" = Some entry
  ∧ ttl c = ttl newTrackIDCache
  ∧ cache (SetAmazon 2000 "USUM71703861" "B0CYQHGWZJ" c) !! "USUM71703861" =
      Some {| TidalTrackID := 11; QobuzTrackID := 12; AmazonTrackID := "B0CYQHGWZJ";
              ExpiresAt := 2000 + 30 * Time.Minute |}.
Proof.
  cbv zeta. split; [by vm_compute|]. split; [reflexivity|].
  apply (proj2 (proj2
    (Set_writes_own_field_and_expiry
       (SetQobuz 1000 "USUM71703861" 12 (SetTidal 500 "USUM71703861" 11 newTrackIDCache))
       2000 "USUM71703861"
       {| TidalTrackID := 11; QobuzTrackID := 12; AmazonTrackID := "";
          ExpiresAt := 1000 + 30 * Time.Minute |}
       ltac:(by vm_compute) eq_refl))).
Defined.

End CacheFacts.

Section GetFacts.

Implicit Types (c : TrackIDCache) (entry : TrackIDCacheEntry) (isrc : string).

Lemma Get_locked_expired now isrc c entry :
  cache c !! isrc = Some entry → Time.After now (ExpiresAt entry) = true →
  Get_locked now isrc c = withCache c (delete isrc (cache c)).
Proof. intros Hl Ha. unfold Get_locked. by rewrite Hl, Ha. Qed.

(** C4. [Get] returns an entry only when the entry had not expired at the
    time [Get] read the clock. When it finds the entry of the identifier
    expired, it returns not-found, and the entry is deleted from the cache
    under the write lock. This holds with other goroutines at work between
    the two locks too: the call still returns not-found, and it deletes the
    entry it then finds under the write lock if that one has expired. *)
Theorem Get_never_returns_expired (now1 now2 : Time.Time) isrc c :
  now1 ≤ now2 →
  (∀ entry c', Get now1 now2 isrc c = (Some entry, c') →
     cache c !! isrc = Some entry ∧ Time.After now1 (ExpiresAt entry) = false ∧ c' = c)
  ∧ (∀ entry, cache c !! isrc = Some entry → Time.After now1 (ExpiresAt entry) = true →
       Get now1 now2 isrc c = (None, withCache c (delete isrc (cache c)))
       ∧ cache (snd (Get now1 now2 isrc c)) !! isrc = None)
  ∧ (∀ entry c2, cache c !! isrc = Some entry → Time.After now1 (ExpiresAt entry) = true →
       fst (Get_between now1 now2 isrc c c2) = None
       ∧ (∀ entry2, cache c2 !! isrc = Some entry2 →
            Time.After now2 (ExpiresAt entry2) = true →
            cache (snd (Get_between now1 now2 isrc c c2)) !! isrc = None)).
Proof.
  intros Hle. split; [|split].
  - intros entry c'. unfold Get, Get_between, Get_rlocked.
    destruct (cache c !! isrc) as [e|]; [|done].
    destruct (Time.After now1 (ExpiresAt e)) eqn:Ha; [done|].
    intros [= <- <-]. done.
  - intros entry Hl Ha.
    assert (Get now1 now2 isrc c = (None, withCache c (delete isrc (cache c)))) as ->.
    { unfold Get, Get_between, Get_rlocked. rewrite Hl, Ha.
      by rewrite (Get_locked_expired _ _ _ _ Hl (After_mono _ _ _ Hle Ha)). }
    split; [done|]. simpl. apply lookup_delete_eq.
  - intros entry c2 Hl Ha. unfold Get_between, Get_rlocked. rewrite Hl, Ha. simpl.
    split; [done|]. intros entry2 Hl2 Ha2.
    rewrite (Get_locked_expired _ _ _ _ Hl2 Ha2). simpl. apply lookup_delete_eq.
Qed.

Lemma Get_never_returns_expired_witness :
  let c := SetTidal 1000 "USUM71703861" 11 newTrackIDCache in
  let late := 1000 + 31 * Time.Minute in
  let entry := {| TidalTrackID := 11; QobuzTrackID := 0; AmazonTrackID := "";
                  ExpiresAt := 1000 + 30 * Time.Minute |} in
  late ≤ late + 5
  ∧ cache c !! "USUM71703861" = Some entry
  ∧ Time.After late (ExpiresAt entry) = true
  ∧ Get late (late + 5) "USUM71703861" c = (None, withCache c (delete "USUM71703861" (cache c)))
  ∧ cache (snd (Get late (late + 5) "USUM71703861" c)) !! "USUM71703861" = None.
Proof.
  cbv zeta. split; [by vm_compute|]. split; [by vm_compute|]. split; [by vm_compute|].
  apply (proj1 (proj2
    (Get_never_returns_expired (1000 + 31 * Time.Minute) (1000 + 31 * Time.Minute + 5)
       "USUM71703861" (SetTidal 1000 "USUM71703861" 11 newTrackIDCache)
       ltac:(by vm_compute)))
    {| TidalTrackID := 11; QobuzTrackID := 0; AmazonTrackID := "";
       ExpiresAt := 1000 + 30 * Time.Minute |});
    by vm_compute.
Defined.

(** An identifier written to the cache is found again under the spelling
    it was written with, as long as it has not expired. *)
Example Get_after_Set :
  let c := SetTidal 1000 "USUM71703861" 11 newTrackIDCache in
  fst (Get 2000 2000 "USUM71703861" c)
  = Some {| TidalTrackID := 11; QobuzTrackID := 0; AmazonTrackID := "";
            ExpiresAt := 1000 + 30 * Time.Minute |}.
Proof. by vm_compute. Qed.

(** What [Get] answers is read off the entry of the key under the read
    lock. *)
Lemma Get_answer now1 now2 isrc c c2 :
  fst (Get_between now1 now2 isrc c c2) =
  match cache c !! isrc with
  | Some entry => if Time.After now1 (ExpiresAt entry) then None else Some entry
  | None => None
  end.
Proof.
  unfold Get_between, Get_rlocked. destruct (cache c !! isrc) as [e|]; [|done].
  by destruct (Time.After now1 (ExpiresAt e)).
Qed.

(** A setter leaves what [Get] answers for another key as it was, for
    every later reading of the clock. *)
Lemma Get_other_key_after_cleanup now now1 now2 (a b : string) c entry' :
  a ≠ b → now ≤ now1 →
  fst (Get now1 now2 b (cleanupIfDue now (withCache c (<[a := entry']> (cache c)))))
  = fst (Get now1 now2 b c).
Proof.
  intros Hne Hle. unfold Get. rewrite !Get_answer.
  set (c1 := withCache c (<[a := entry']> (cache c))).
  assert (Hc1 : cache c1 !! b = cache c !! b) by (simpl; by rewrite lookup_insert_ne).
  destruct (cleanupIfDue_lookup now c1 b) as [-> | ->].
  - by rewrite Hc1.
  - rewrite pruneExpiredLocked_lookup, Hc1.
    destruct (cache c !! b) as [e|]; [|done].
    destruct (Time.After now (ExpiresAt e)) eqn:Ha; [|done].
    by rewrite (After_mono _ _ _ Hle Ha).
Qed.

End GetFacts.

(** ** Identifiers and letter case *)

Section CaseFacts.

Context `{Unicode}.

Lemma sameLetter_upperByte x y :
  (Strings.code x <? 128)%N = true → sameLetter x y = true →
  Strings.upperByte x = Strings.upperByte y ∧ (Strings.code y <? 128)%N = true.
Proof.
  intros Hx. unfold sameLetter. rewrite !orb_true_iff, !andb_true_iff.
  intros [[Heq | [Hl Heq]] | [Hl Heq]].
  - apply Ascii.eqb_eq in Heq. by subst y.
  - apply Ascii.eqb_eq in Heq. subst y. clear Hx.
    destruct x as [[] [] [] [] [] [] [] []]; try discriminate Hl; by vm_compute.
  - apply Ascii.eqb_eq in Heq. subst x. clear Hx.
    destruct y as [[] [] [] [] [] [] [] []]; try discriminate Hl; by vm_compute.
Qed.

Lemma differOnlyInCase_upper a : ∀ b,
  Strings.isASCII a = true → differOnlyInCase a b = true →
  Strings.isASCII b = true
  ∧ Strings.mapBytes Strings.upperByte a = Strings.mapBytes Strings.upperByte b.
Proof.
  induction a as [|x a IH]; intros [|y b]; simpl; try done.
  intros [Hx Ha]%andb_true_iff [Hxy Hab]%andb_true_iff.
  destruct (sameLetter_upperByte _ _ Hx Hxy) as [-> ->].
  destruct (IH b Ha Hab) as [-> ->]. done.
Qed.

Lemma differOnlyInCase_ToUpper a b :
  Strings.isASCII a = true → differOnlyInCase a b = true →
  Strings.ToUpper a = Strings.ToUpper b.
Proof.
  intros Ha Hab. destruct (differOnlyInCase_upper _ _ Ha Hab) as [Hb Heq].
  unfold Strings.ToUpper. by rewrite Ha, Hb.
Qed.

Lemma differOnlyInCase_empty a b :
  differOnlyInCase a b = true → String.eqb a "" = String.eqb b "".
Proof. destruct a, b; simpl; done. Qed.

End CaseFacts.

(** C3, the claim as stated fails for the cache. Two spellings of one
    identifier that differ in letter case only are two keys of the cache:
    what was written under the one is not found under the other. *)
Lemma cache_keys_keep_their_case :
  let c := SetTidal 1000 "usum71703861" 11 newTrackIDCache in
  differOnlyInCase "usum71703861" "USUM71703861" = true
  ∧ fst (Get 2000 2000 "usum71703861" c)
    = Some {| TidalTrackID := 11; QobuzTrackID := 0; AmazonTrackID := "";
              ExpiresAt := 1000 + 30 * Time.Minute |}
  ∧ fst (Get 2000 2000 "USUM71703861" c) = None
  ∧ cache (SetQobuz 2000 "USUM71703861" 12 c) !! "usum71703861"
    = Some {| TidalTrackID := 11; QobuzTrackID := 0; AmazonTrackID := "";
              ExpiresAt := 1000 + 30 * Time.Minute |}.
Proof. cbv zeta. repeat split; by vm_compute. Qed.

(** C3, as amended. For two ASCII identifiers that differ in letter case
    only, the canonical uppercase forms are equal, and the operations of
    the index ([lookup], [Lookup], [Add], [remove]) give the same result
    for both. The operations of the cache ([Get], [SetTidal], [SetQobuz],
    [SetAmazon]) take the identifier as it is written: a write under one
    spelling leaves what [Get] answers under a different spelling as it
    was. *)
Theorem index_operations_ignore_case `{Unicode} (a b : string) :
  Strings.isASCII a = true →
  differOnlyInCase a b = true →
  Strings.ToUpper a = Strings.ToUpper b
  ∧ (∀ idx, Index.lookup idx a = Index.lookup idx b
            ∧ Index.Lookup idx a = Index.Lookup idx b
            ∧ Index.remove idx a = Index.remove idx b
            ∧ ∀ filePath, Index.Add idx a filePath = Index.Add idx b filePath)
  ∧ (∀ c now now1 now2, a ≠ b → now ≤ now1 →
       (∀ v, fst (Get now1 now2 b (SetTidal now a v c)) = fst (Get now1 now2 b c))
       ∧ (∀ v, fst (Get now1 now2 b (SetQobuz now a v c)) = fst (Get now1 now2 b c))
       ∧ (∀ v, fst (Get now1 now2 b (SetAmazon now a v c)) = fst (Get now1 now2 b c))).
Proof.
  intros Ha Hab.
  pose proof (differOnlyInCase_ToUpper _ _ Ha Hab) as Hup.
  pose proof (differOnlyInCase_empty _ _ Hab) as He.
  split; [done|]. split.
  - intros idx. unfold Index.Lookup, Index.lookup, Index.remove, Index.Add.
    rewrite He, Hup. done.
  - intros c now now1 now2 Hne Hle.
    repeat split; intros v; unfold SetTidal, SetQobuz, SetAmazon;
      by apply Get_other_key_after_cleanup.
Qed.

Lemma index_operations_ignore_case_witness :
  let idx := {| index := {["USUM71703861" := "/sdcard/Music/song.flac"]};
                outputDir := "/sdcard/Music"; buildTime := 1000 |} in
  Strings.isASCII "usum71703861" = true
  ∧ differOnlyInCase "usum71703861" "UsUm71703861" = true
  ∧ @Index.lookup sampleUnicode idx "usum71703861" = @Index.lookup sampleUnicode idx "UsUm71703861"
  ∧ @Index.lookup sampleUnicode idx "usum71703861" = ("/sdcard/Music/song.flac", true).
Proof.
  cbv zeta. split; [reflexivity|]. split; [reflexivity|]. split.
  - apply (proj1 (proj1 (proj2
      (@index_operations_ignore_case sampleUnicode "usum71703861" "UsUm71703861"
         eq_refl eq_refl)) _)).
  - by vm_compute.
Defined.

(** ** The ISRC file index *)

Section IndexFacts.

Context `{Unicode}.

Implicit Types (idx : ISRCIndex) (st : gmap string ISRCIndex) (dir isrc : string).

Lemma eqb_empty_false (s : string) : s ≠ "" → String.eqb s "" = false.
Proof. intros Hs. by apply String.eqb_neq. Qed.

(** The index [GetISRCIndex] hands out for a named directory is the one the
    cache holds for it afterwards. *)
Lemma GetISRCIndex_cached now os readMetadata dir st idx st1 :
  dir ≠ "" →
  GetISRCIndex now os readMetadata dir st = (idx, st1) →
  st1 !! dir = Some idx.
Proof.
  intros Hdir. unfold GetISRCIndex, freshIndex.
  destruct (st !! dir) as [cached|] eqn:Hl.
  - destruct (Time.Since now (buildTime cached) <? isrcIndexTTL).
    + by intros [= <- <-].
    + unfold buildISRCIndex. rewrite (eqb_empty_false _ Hdir).
      intros [= <- <-]. apply lookup_insert_eq.
  - unfold buildISRCIndex. rewrite (eqb_empty_false _ Hdir).
    intros [= <- <-]. apply lookup_insert_eq.
Qed.

(** A fresh cached index is handed out as it is, with no walk. *)
Lemma GetISRCIndex_fresh now os readMetadata dir st idx :
  st !! dir = Some idx → Time.Since now (buildTime idx) < isrcIndexTTL →
  GetISRCIndex now os readMetadata dir st = (idx, st).
Proof.
  intros Hl Hf. unfold GetISRCIndex, freshIndex. rewrite Hl.
  apply Z.ltb_lt in Hf. by rewrite Hf.
Qed.

Lemma lookup_found_nonempty idx isrc filePath :
  Index.lookup idx isrc = (filePath, true) →
  String.eqb isrc "" = false ∧ index idx !! Strings.ToUpper isrc = Some filePath.
Proof.
  unfold Index.lookup. destruct (String.eqb isrc ""); [done|].
  destruct (index idx !! Strings.ToUpper isrc); [|done]. by intros [= ->].
Qed.

Lemma lookup_after_remove idx isrc :
  Index.lookup (Index.remove idx isrc) isrc = ("", false).
Proof.
  unfold Index.lookup, Index.remove. destruct (String.eqb isrc "") eqn:E; [done|].
  simpl. by rewrite lookup_delete_eq.
Qed.

Lemma lookup_other_after_remove idx isrc other :
  Strings.ToUpper other ≠ Strings.ToUpper isrc →
  Index.lookup (Index.remove idx isrc) other = Index.lookup idx other.
Proof.
  intros Hne. unfold Index.lookup, Index.remove.
  destruct (String.eqb isrc ""); [done|]. simpl. by rewrite lookup_delete_ne.
Qed.

(** A file is confirmed missing when [os.Stat] fails on its path, or the
    path is a directory, or the file has no bytes. *)
Lemma CheckFileExists_missing os filePath :
  (∃ e, Stat os filePath = Err e)
  ∨ (∃ info, Stat os filePath = Ok info ∧ (IsDir info = true ∨ Size info = 0)) →
  CheckFileExists os filePath = false.
Proof.
  unfold CheckFileExists. intros [[e ->] | (info & -> & [Hd | Hs])]; [done| |].
  - by rewrite Hd.
  - rewrite Hs. apply andb_false_r.
Qed.

(** C7. Let an identifier be in the index of a directory, the index that
    [GetISRCIndex] hands out for it, and let the file it names be missing:
    [os.Stat] fails on it, or it is a directory, or it has size zero. Then
    the existence check returns not-found, and afterwards the cached index
    of the directory holds no entry for the identifier, its other entries
    being as they were. *)
Theorem checkISRCExistsInternal_evicts_missing now os readMetadata dir isrc st idx st1 filePath :
  dir ≠ "" →
  GetISRCIndex now os readMetadata dir st = (idx, st1) →
  Index.lookup idx isrc = (filePath, true) →
  (∃ e, Stat os filePath = Err e)
  ∨ (∃ info, Stat os filePath = Ok info ∧ (IsDir info = true ∨ Size info = 0)) →
  ∃ idx' st',
    checkISRCExistsInternal now os readMetadata dir isrc st = (("", false), st')
    ∧ fst (CheckISRCExists now os readMetadata dir isrc st) = Ok ""
    ∧ st1 !! dir = Some idx
    ∧ st' !! dir = Some idx'
    ∧ Index.lookup idx' isrc = ("", false)
    ∧ index idx' !! Strings.ToUpper isrc = None
    ∧ (∀ other, Strings.ToUpper other ≠ Strings.ToUpper isrc →
         Index.lookup idx' other = Index.lookup idx other)
    ∧ (∀ dir', dir' ≠ dir → st' !! dir' = st1 !! dir').
Proof.
  intros Hdir Hget Hlook Hmiss.
  destruct (lookup_found_nonempty _ _ _ Hlook) as [Hisrc Hidx].
  pose proof (CheckFileExists_missing _ _ Hmiss) as Hcheck.
  assert (Hrun : checkISRCExistsInternal now os readMetadata dir isrc st
                 = (("", false), <[dir := Index.remove idx isrc]> st1)).
  { unfold checkISRCExistsInternal.
    rewrite Hisrc, (eqb_empty_false _ Hdir), Hget, Hlook. simpl. by rewrite Hcheck. }
  exists (Index.remove idx isrc), (<[dir := Index.remove idx isrc]> st1).
  split; [done|]. split; [unfold CheckISRCExists; by rewrite Hrun|].
  split; [by eapply GetISRCIndex_cached|].
  split; [apply lookup_insert_eq|].
  split; [apply lookup_after_remove|].
  split; [unfold Index.remove; rewrite Hisrc; simpl; apply lookup_delete_eq|].
  split.
  - intros other Hne. by apply lookup_other_after_remove.
  - intros dir' Hne. by rewrite lookup_insert_ne.
Qed.

End IndexFacts.

Lemma checkISRCExistsInternal_evicts_missing_witness :
  let idx := {| index := {["USUM71703861" := "/sdcard/Music/gone.flac"]};
                outputDir := "/sdcard/Music"; buildTime := 1000 |} in
  let st : gmap string ISRCIndex := {["/sdcard/Music" := idx]} in
  "/sdcard/Music" ≠ ""
  ∧ @GetISRCIndex sampleUnicode 2000 sampleOS sampleReadMetadata "/sdcard/Music" st = (idx, st)
  ∧ @Index.lookup sampleUnicode idx "usum71703861" = ("/sdcard/Music/gone.flac", true)
  ∧ isOk (Stat sampleOS "/sdcard/Music/gone.flac") = false
  ∧ ∃ idx' st',
      @checkISRCExistsInternal sampleUnicode 2000 sampleOS sampleReadMetadata
        "/sdcard/Music" "usum71703861" st = (("", false), st')
      ∧ st' !! "/sdcard/Music" = Some idx'
      ∧ @Index.lookup sampleUnicode idx' "usum71703861" = ("", false).
Proof.
  cbv zeta. split; [done|]. split; [by vm_compute|]. split; [by vm_compute|].
  split; [reflexivity|].
  destruct (@checkISRCExistsInternal_evicts_missing sampleUnicode 2000 sampleOS
              sampleReadMetadata "/sdcard/Music" "usum71703861"
              {["/sdcard/Music" :=
                  {| index := {["USUM71703861" := "/sdcard/Music/gone.flac"]};
                     outputDir := "/sdcard/Music"; buildTime := 1000 |}]}
              {| index := {["USUM71703861" := "/sdcard/Music/gone.flac"]};
                 outputDir := "/sdcard/Music"; buildTime := 1000 |}
              {["/sdcard/Music" :=
                  {| index := {["USUM71703861" := "/sdcard/Music/gone.flac"]};
                     outputDir := "/sdcard/Music"; buildTime := 1000 |}]}
              "/sdcard/Music/gone.flac")
    as (idx' & st' & Hrun & _ & _ & Hst & Hlook & _).
  - done.
  - by vm_compute.
  - by vm_compute.
  - left. by eexists.
  - exists idx', st'. done.
Defined.

(** A stale index is rebuilt from the walk; a file the walk no longer
    meets is not in the rebuilt index, and one it meets under a tag in
    lower case is found under any spelling of the identifier. *)
Example rebuilt_index_lookup :
  let old := {| index := {["GBXXX0000001" := "/sdcard/Music/gone.flac"]};
                outputDir := "/sdcard/Music"; buildTime := 1000 |} in
  let st : gmap string ISRCIndex := {["/sdcard/Music" := old]} in
  let now := 1000 + 6 * Time.Minute in
  fst (@checkISRCExistsInternal sampleUnicode now sampleOS sampleReadMetadata
         "/sdcard/Music" "gbxxx0000001" st) = ("", false)
  ∧ fst (@checkISRCExistsInternal sampleUnicode now sampleOS sampleReadMetadata
         "/sdcard/Music" "UsUm71703861" st) = ("/sdcard/Music/song.flac", true).
Proof. cbv zeta. split; by vm_compute. Qed.

(** ** The parallel cover and lyrics fetch *)

Section FetchFacts.

Variables (coverURL : string) (maxQualityCover : bool)
          (spotifyID trackName artistName : string)
          (embedLyrics : bool) (durationMs : Z).

Local Abbreviation fetch F :=
  (FetchCoverAndLyricsParallel F coverURL maxQualityCover spotifyID trackName artistName
     embedLyrics durationMs).

(** The cover fields of the result, read off the cover download alone. *)
Lemma fetch_cover_fields F :
  (CoverData (fetch F), CoverErr (fetch F)) =
  if String.eqb coverURL "" then (None, None)
  else match downloadCoverToMemory F coverURL maxQualityCover with
       | Ok data => (Some data, None)
       | Err e => (None, Some e)
       end.
Proof.
  unfold FetchCoverAndLyricsParallel, coverTask, lyricsTask.
  destruct (String.eqb coverURL ""); simpl;
    destruct embedLyrics;
    repeat match goal with
           | |- context [match ?x with _ => _ end] => destruct x; simpl
           end; done.
Qed.

(** The lyrics fields of the result, read off the lyrics fetch alone. *)
Lemma fetch_lyrics_fields F :
  (LyricsData (fetch F), LyricsLRC (fetch F), LyricsErr (fetch F)) =
  if embedLyrics then
    match FetchLyricsAllSources F spotifyID trackName artistName durationMs with
    | Err e => (None, "", Some e)
    | Ok (Some lyrics) =>
        if (0 <? length (Lines lyrics))%nat
        then (Some lyrics, convertToLRCWithMetadata F lyrics trackName artistName, None)
        else (None, "", Some "no lyrics found")
    | Ok None => (None, "", Some "no lyrics found")
    end
  else (None, "", None).
Proof.
  unfold FetchCoverAndLyricsParallel, coverTask, lyricsTask.
  destruct embedLyrics; simpl;
    repeat match goal with
           | |- context [match ?x with _ => _ end] => destruct x; simpl
           end; done.
Qed.

(** The two goroutines write different fields: the order in which they
    write makes no difference. *)
Lemma fetch_order_irrelevant F :
  fetch F = FetchCoverAndLyricsParallel_lyricsFirst F coverURL maxQualityCover
              spotifyID trackName artistName embedLyrics durationMs.
Proof.
  unfold FetchCoverAndLyricsParallel, FetchCoverAndLyricsParallel_lyricsFirst,
    coverTask, lyricsTask.
  destruct (String.eqb coverURL ""); simpl;
    destruct embedLyrics;
    repeat match goal with
           | |- context [match ?x with _ => _ end] => destruct x; simpl
           end; done.
Qed.

(** C9. The result of the combined fetch holds the outcome of the cover
    download and the outcome of the lyrics fetch in separate fields. The
    cover fields are the same for any two lyrics clients, the lyrics fields
    the same for any two cover downloaders; a cover that downloads is in
    the result and a failure is recorded as the cover error, whatever the
    lyrics fetch did, and likewise for the lyrics. When the lyrics fetch
    returns lines, the result holds them and the rendering
    [convertToLRCWithMetadata] makes of them with the track name and the
    artist name, and no lyrics error. *)
Theorem fetch_outcomes_independent F :
  let fetched := λ F0,
    FetchCoverAndLyricsParallel F0 coverURL maxQualityCover spotifyID trackName artistName
      embedLyrics durationMs in
  (∀ F', downloadCoverToMemory F' = downloadCoverToMemory F →
     CoverData (fetched F') = CoverData (fetched F) ∧ CoverErr (fetched F') = CoverErr (fetched F))
  ∧ (∀ F', FetchLyricsAllSources F' = FetchLyricsAllSources F →
       convertToLRCWithMetadata F' = convertToLRCWithMetadata F →
       LyricsData (fetched F') = LyricsData (fetched F)
       ∧ LyricsLRC (fetched F') = LyricsLRC (fetched F)
       ∧ LyricsErr (fetched F') = LyricsErr (fetched F))
  ∧ (∀ data, coverURL ≠ "" → downloadCoverToMemory F coverURL maxQualityCover = Ok data →
       CoverData (fetched F) = Some data ∧ CoverErr (fetched F) = None)
  ∧ (∀ e, coverURL ≠ "" → downloadCoverToMemory F coverURL maxQualityCover = Err e →
       CoverData (fetched F) = None ∧ CoverErr (fetched F) = Some e)
  ∧ (∀ e, embedLyrics = true →
       FetchLyricsAllSources F spotifyID trackName artistName durationMs = Err e →
       LyricsData (fetched F) = None ∧ LyricsErr (fetched F) = Some e)
  ∧ (∀ lyrics, embedLyrics = true →
       FetchLyricsAllSources F spotifyID trackName artistName durationMs = Ok (Some lyrics) →
       Lines lyrics ≠ [] →
       LyricsData (fetched F) = Some lyrics
       ∧ LyricsLRC (fetched F) = convertToLRCWithMetadata F lyrics trackName artistName
       ∧ LyricsErr (fetched F) = None).
Proof.
  cbv zeta.
  split; [|split; [|split; [|split; [|split]]]].
  - intros F' Hc. pose proof (fetch_cover_fields F) as H1.
    pose proof (fetch_cover_fields F') as H2. rewrite Hc in H2. rewrite <- H1 in H2.
    by injection H2.
  - intros F' Hl Hconv. pose proof (fetch_lyrics_fields F) as H1.
    pose proof (fetch_lyrics_fields F') as H2. rewrite Hl, Hconv in H2. rewrite <- H1 in H2.
    by injection H2.
  - intros data Hurl Hd. pose proof (fetch_cover_fields F) as H1.
    apply String.eqb_neq in Hurl. rewrite Hurl, Hd in H1. by injection H1.
  - intros e Hurl Hd. pose proof (fetch_cover_fields F) as H1.
    apply String.eqb_neq in Hurl. rewrite Hurl, Hd in H1. by injection H1.
  - intros e He Hl. pose proof (fetch_lyrics_fields F) as H1.
    rewrite He, Hl in H1. rewrite He. by injection H1.
  - intros lyrics He Hl Hlines. pose proof (fetch_lyrics_fields F) as H1.
    rewrite He, Hl in H1. rewrite He. destruct (Lines lyrics) as [|l ls] eqn:E; [done|].
    simpl in H1. by injection H1.
Qed.

End FetchFacts.

(** The cover downloads and every lyrics source fails: the result holds
    the cover and the lyrics error. The cover fails and the lyrics are
    found: the result holds the lyrics, their rendering and the cover
    error. *)
Lemma fetch_outcomes_independent_witness :
  let res := FetchCoverAndLyricsParallel sampleFetchers "https://i.scdn.co/image/cover" true
               "4uLU6hMCjMI75M1A2tKUQC" "Song" "Artist" true 215000 in
  let res' := FetchCoverAndLyricsParallel sampleFetchersWithLyrics "https://i.scdn.co/image/cover"
                true "4uLU6hMCjMI75M1A2tKUQC" "Song" "Artist" true 215000 in
  (CoverData res = Some "JFIF-bytes" ∧ CoverErr res = None)
  ∧ (LyricsData res = None ∧ LyricsErr res = Some "lyrics not found in any source")
  ∧ (LyricsData res' = Some {| Lines := ["first line"; "second line"] |}
     ∧ LyricsLRC res' = "[ti:Song] [ar:Artist] first line second line"
     ∧ LyricsErr res' = None)
  ∧ CoverErr res' = Some "cover download failed".
Proof.
  cbv zeta.
  pose proof (fetch_outcomes_independent "https://i.scdn.co/image/cover" true
                "4uLU6hMCjMI75M1A2tKUQC" "Song" "Artist" true 215000 sampleFetchers)
    as (_ & _ & Hcover & _ & Hlyr & _).
  pose proof (fetch_outcomes_independent "https://i.scdn.co/image/cover" true
                "4uLU6hMCjMI75M1A2tKUQC" "Song" "Artist" true 215000 sampleFetchersWithLyrics)
    as (_ & _ & _ & _ & _ & Hlines).
  split; [by apply Hcover|]. split; [by apply Hlyr|].
  split; [by apply Hlines|]. reflexivity.
Defined.

(** ** The cache pre-warmer *)

(** A request whose identifier is not in the cache goes to the resolver its
    service names, and a found id is written to the cache. *)
Lemma PreWarmTrackCache_single now R req st :
  cache (trackIDCache st) !! PreWarmCacheRequest.ISRC req = None →
  PreWarmTrackCache now R [req] st = preWarmOne now R req st.
Proof.
  intros Hl. unfold PreWarmTrackCache. simpl.
  unfold Get, Get_between, Get_rlocked. rewrite Hl. by destruct st.
Qed.

(** A request whose identifier has a live entry in the cache is skipped. *)
Lemma PreWarmTrackCache_skips_cached now R req st entry :
  cache (trackIDCache st) !! PreWarmCacheRequest.ISRC req = Some entry →
  Time.After now (ExpiresAt entry) = false →
  PreWarmTrackCache now R [req] st = st.
Proof.
  intros Hl Ha. unfold PreWarmTrackCache. simpl.
  unfold Get, Get_between, Get_rlocked. rewrite Hl, Ha. by destruct st.
Qed.

Lemma preWarmTidalCache_writes now R isrc st id :
  TidalSearchTrackByISRC R isrc = Ok (Some id) →
  preWarmTidalCache now R isrc st =
    {| trackIDCache := SetTidal now isrc id (trackIDCache st);
       calls := (calls st ++ [CallTidal isrc])%list |}.
Proof. intros Hs. unfold preWarmTidalCache. by rewrite Hs. Qed.

(** C5, the code at an input the claim covers. [PreWarmCache] does not read
    its argument: for every submitted list it starts [PreWarmTrackCache] on
    the empty list, so no resolver is called and the cache stays as it was.
    For the list of one Tidal request, whose identifier is not in the
    cache and which the Tidal search resolves, [PreWarmTrackCache] on that
    request calls the Tidal resolver and writes the id, and [PreWarmCache]
    on the submitted list does neither. *)
Theorem PreWarmCache_drops_submitted_tracks :
  let st0 := {| trackIDCache := newTrackIDCache; calls := [] |} in
  (∀ now R tracksJSON st, PreWarmCache now R tracksJSON st = (None, st))
  ∧ PreWarmCache 1000 sampleResolvers sampleTracksJSON st0 = (None, st0)
  ∧ calls (snd (PreWarmCache 1000 sampleResolvers sampleTracksJSON st0)) = []
  ∧ fst (Get 2000 2000 "USUM71703861"
           (trackIDCache (snd (PreWarmCache 1000 sampleResolvers sampleTracksJSON st0)))) = None
  ∧ calls (PreWarmTrackCache 1000 sampleResolvers [sampleRequest] st0) = [CallTidal "USUM71703861"]
  ∧ fst (Get 2000 2000 "USUM71703861"
           (trackIDCache (PreWarmTrackCache 1000 sampleResolvers [sampleRequest] st0)))
    = Some {| TidalTrackID := 11; QobuzTrackID := 0; AmazonTrackID := "";
              ExpiresAt := 1000 + 30 * Time.Minute |}.
Proof. cbv zeta. repeat split; by vm_compute. Qed.

(** Two equal batches one after the other: the second calls no resolver. *)
Example PreWarmTrackCache_twice :
  let st0 := {| trackIDCache := newTrackIDCache; calls := [] |} in
  let st1 := PreWarmTrackCache 1000 sampleResolvers [sampleRequest] st0 in
  calls (PreWarmTrackCache 2000 sampleResolvers [sampleRequest] st1) = calls st1.
Proof. by vm_compute. Qed.

(** ** The script execution controller *)

Section ExecFacts.

Import Exec.

Implicit Types (s : State) (h : History) (ev : Event) (evs : list Event).

Lemma run_app evs1 : ∀ s evs2,
  run s (evs1 ++ evs2) = match run s evs1 with Some s' => run s' evs2 | None => None end.
Proof.
  induction evs1 as [|ev evs1 IH]; intros s evs2; simpl; [done|].
  destruct (step s ev); [apply IH|done].
Qed.

Lemma inv_start : inv start noHistory.
Proof. unfold inv, notReceived. simpl. repeat split; done. Qed.

Lemma inv_step s h ev s' : inv s h → step s ev = Some s' → inv s' (record s ev h).
Proof.
  destruct s as [g c i ch]. unfold inv, notReceived, step, record. simpl.
  intros [Hc Hg] Hstep.
  destruct ev; destruct g; simplify_eq/=;
    try (destruct c; destruct ch as [res0|]; simplify_eq/=);
    try (destruct c; simplify_eq/=);
    repeat match goal with
           | H : _ ∨ _ |- _ => destruct H
           | H : _ ∧ _ |- _ => destruct H
           | H : ∃ _, _ |- _ => destruct H
           end;
    simplify_eq/=;
    try (destruct i; simplify_eq/=);
    try solve [naive_solver];
    (split; [intros; congruence|]);
    try (by left);
    right;
    match goal with
    | Hp : flagAtPanic _ = Some ?pf, Hr : flagRead _ = Some ?w
      |- context [sentAfterPanic ?r ?w] =>
        exists r, w, pf; destruct w; naive_solver
    end.
Qed.

Lemma inv_run evs : ∀ s h s',
  inv s h → run s evs = Some s' → inv s' (history s h evs).
Proof.
  induction evs as [|ev evs IH]; intros s h s' Hinv Hrun; simpl in *.
  - by simplify_eq.
  - destruct (step s ev) as [s1|] eqn:Hstep; [|done].
    eapply IH; [|done]. by eapply inv_step.
Qed.

(** What the invariant says once the caller has returned. *)
Lemma inv_returned s h res :
  inv s h → caller s = Returned res →
  (graceElapsed h = true → res = forcedResult)
  ∧ (∀ w, flagRead h = Some w → graceElapsed h = true ∨ ∃ r, res = sentAfterPanic r w)
  ∧ (flagAtPanic h = Some true → graceElapsed h = true ∨ flagRead h = Some true).
Proof.
  destruct s as [g c i ch]. unfold inv, notReceived. simpl. intros [Hc Hg] ->.
  split; [done|]. split.
  - intros w Hw. destruct g as [|r|r w'|].
    + destruct Hg as (_ & ? & _). congruence.
    + destruct Hg as (_ & ? & _). congruence.
    + destruct Hg as (_ & _ & _ & Hn). left. by eapply Hn.
    + destruct Hg as [[_ ?]|(r & w' & pf & _ & _ & Hw' & [[_ Hn]|(_ & Hres & _)])].
      * congruence.
      * left. by eapply Hn.
      * right. exists r. congruence.
  - intros Hp. destruct g as [|r|r w'|].
    + destruct Hg as (? & _). congruence.
    + destruct Hg as (_ & _ & _ & Hn). left. by eapply Hn.
    + destruct Hg as (_ & _ & _ & Hn). left. by eapply Hn.
    + destruct Hg as [[? _]|(r & w' & pf & Hpf & Himp & Hw' & _)]; [congruence|].
      right. rewrite Hw'. f_equal. apply Himp. congruence.
Qed.

(** The caller can always go on to return: the deadline and then the
    grace period end whatever the goroutine does. *)
Lemma caller_returns evs s :
  run start evs = Some s → ∃ more res, RunWithTimeout (evs ++ more) = Some res.
Proof.
  intros Hrun. unfold RunWithTimeout.
  destruct (caller s) as [| |res] eqn:Hc.
  - exists [DeadlineFires; GraceElapses]. eexists.
    rewrite run_app, Hrun. simpl. unfold step. rewrite Hc. simpl. done.
  - exists [GraceElapses]. eexists.
    rewrite run_app, Hrun. simpl. unfold step. rewrite Hc. simpl. done.
  - exists [], res. by rewrite app_nil_r, Hrun, Hc.
Qed.

(** Once the deferred function has read the flag as unset, its error is
    what the caller returns when the result is sent and then received. *)
Lemma panic_error_delivered evs s r :
  run start evs = Some s →
  goroutine s = Classified r false →
  (∀ res, caller s ≠ Returned res) →
  RunWithTimeout (evs ++ [SendsResult; Receives])
  = Some {| value := None; err := Some (panicError r) |}.
Proof.
  intros Hrun Hg Hc. unfold RunWithTimeout. rewrite run_app, Hrun. simpl.
  rewrite Hg. simpl.
  destruct (caller s) as [| |res] eqn:Hcs; simpl; [done|done|by destruct (Hc res)].
Qed.

End ExecFacts.




(** A script that throws returns its error through [RunString]: the caller
    gets that error, not a timeout. A panic after the deadline is a
    timeout. *)
Example RunWithTimeout_schedules :
  Exec.RunWithTimeout [Exec.RunReturns None (Some (Exec.EngineError "Error: bad input")); Exec.Receives]
  = Some {| Exec.value := None; Exec.err := Some (Exec.EngineError "Error: bad input") |}
  ∧ Exec.RunWithTimeout [Exec.RunPanics "boom"; Exec.ReadsFlag; Exec.SendsResult; Exec.Receives]
    = Some {| Exec.value := None; Exec.err := Some (Exec.panicError "boom") |}
  ∧ Exec.RunWithTimeout [Exec.DeadlineFires; Exec.RunPanics "interrupted"; Exec.ReadsFlag;
                         Exec.SendsResult; Exec.Receives]
    = Some {| Exec.value := None; Exec.err := Some Exec.timeoutError |}
  ∧ Exec.RunWithTimeout [Exec.DeadlineFires; Exec.GraceElapses]
    = Some {| Exec.value := None; Exec.err := Some Exec.forcedTimeoutError |}.
Proof. repeat split; reflexivity. Qed.

(** * Further properties *)

(** ** The track-id cache *)

Section CacheMore.

Implicit Types (c : TrackIDCache) (entry : TrackIDCacheEntry) (isrc : string).

Lemma TrackIDCache_eq c1 c2 :
  cache c1 = cache c2 → ttl c1 = ttl c2 → lastCleanup c1 = lastCleanup c2 →
  cleanupInterval c1 = cleanupInterval c2 → c1 = c2.
Proof. destruct c1, c2. simpl. by intros -> -> -> ->. Qed.

Lemma setters_store now isrc c :
  (∀ v, SetTidal now isrc v c
        = storeEntry now isrc (tidalEntry v (entryOrNew isrc c) (now + ttl c)) c)
  ∧ (∀ v, SetQobuz now isrc v c
          = storeEntry now isrc (qobuzEntry v (entryOrNew isrc c) (now + ttl c)) c)
  ∧ (∀ v, SetAmazon now isrc v c
          = storeEntry now isrc (amazonEntry v (entryOrNew isrc c) (now + ttl c)) c).
Proof. repeat split. Qed.

(** Every setter stores an entry whose expiry is the time of the write
    plus the TTL. *)
Lemma afterSetter_store now isrc c c' :
  afterSetter now isrc c c' →
  ∃ entry, c' = storeEntry now isrc entry c ∧ ExpiresAt entry = now + ttl c.
Proof.
  intros [[v ->]|[[v ->]|[v ->]]]; eexists; (split; [reflexivity|done]).
Qed.

Lemma storeEntry_fields now isrc entry c :
  ttl (storeEntry now isrc entry c) = ttl c
  ∧ cleanupInterval (storeEntry now isrc entry c) = cleanupInterval c
  ∧ lastCleanup (storeEntry now isrc entry c)
    = (if cleanupDue now c then now else lastCleanup c).
Proof.
  unfold storeEntry, cleanupIfDue. fold (cleanupDue now (withCache c (<[isrc:=entry]> (cache c)))).
  change (cleanupDue now (withCache c (<[isrc:=entry]> (cache c)))) with (cleanupDue now c).
  by destruct (cleanupDue now c).
Qed.

(** The entries of the cache after a store. *)
Lemma storeEntry_lookup now isrc entry c k :
  cache (storeEntry now isrc entry c) !! k =
  let stored := if decide (k = isrc) then Some entry else cache c !! k in
  if cleanupDue now c then
    match stored with
    | Some e => if Time.After now (ExpiresAt e) then None else Some e
    | None => None
    end
  else stored.
Proof.
  unfold storeEntry, cleanupIfDue. fold (cleanupDue now (withCache c (<[isrc:=entry]> (cache c)))).
  change (cleanupDue now (withCache c (<[isrc:=entry]> (cache c)))) with (cleanupDue now c).
  cbv zeta.
  assert (Hs : cache (withCache c (<[isrc:=entry]> (cache c))) !! k
               = if decide (k = isrc) then Some entry else cache c !! k).
  { simpl. destruct (decide (k = isrc)) as [->|Hne]; [apply lookup_insert_eq|].
    by rewrite lookup_insert_ne. }
  destruct (cleanupDue now c).
  - change (cache {| cache := cache (pruneExpiredLocked now (withCache c (<[isrc:=entry]> (cache c))));
                     ttl := ttl (pruneExpiredLocked now (withCache c (<[isrc:=entry]> (cache c))));
                     lastCleanup := now;
                     cleanupInterval := cleanupInterval (pruneExpiredLocked now (withCache c (<[isrc:=entry]> (cache c)))) |})
      with (cache (pruneExpiredLocked now (withCache c (<[isrc:=entry]> (cache c))))).
    by rewrite pruneExpiredLocked_lookup, Hs.
  - done.
Qed.



(** X2. What a setter does to the rest of the cache. It adds no entry but
    the one it writes. When the sweep is due (the sweep interval is
    positive and no sweep was made yet, or the last one is at least the
    interval old), no entry that has expired is left, every other entry
    that has not expired is kept, and the time of the last sweep is the
    time of the write. When the sweep is not due, every other entry is
    kept, expired or not. The first write to a new cache sweeps. *)
Theorem setter_sweep c c' (now : Time.Time) isrc :
  afterSetter now isrc c c' →
  (∀ k e, cache c' !! k = Some e → k = isrc ∨ cache c !! k = Some e)
  ∧ (cleanupDue now c = true →
       lastCleanup c' = now
       ∧ (∀ k e, cache c' !! k = Some e → Time.After now (ExpiresAt e) = false)
       ∧ (∀ k e, k ≠ isrc → cache c !! k = Some e →
            Time.After now (ExpiresAt e) = false → cache c' !! k = Some e))
  ∧ (cleanupDue now c = false →
       lastCleanup c' = lastCleanup c
       ∧ ∀ k, k ≠ isrc → cache c' !! k = cache c !! k)
  ∧ cleanupDue now newTrackIDCache = true.
Proof.
  intros Hset. destruct (afterSetter_store _ _ _ _ Hset) as (entry & -> & He).
  destruct (storeEntry_fields now isrc entry c) as (_ & _ & Hlast).
  split; [|split; [|split]].
  - intros k e. rewrite storeEntry_lookup. cbv zeta.
    destruct (decide (k = isrc)) as [->|Hne]; [by left|]. right.
    destruct (cleanupDue now c); [|done].
    destruct (cache c !! k) as [e0|]; [|done].
    by destruct (Time.After now (ExpiresAt e0)).
  - intros Hdue. rewrite Hdue in Hlast. split; [done|]. split.
    + intros k e. rewrite storeEntry_lookup, Hdue. cbv zeta.
      destruct (if decide (k = isrc) then Some entry else cache c !! k) as [e0|]; [|done].
      destruct (Time.After now (ExpiresAt e0)) eqn:Ha; [done|]. by intros [= <-].
    + intros k e Hne Hl Ha. rewrite storeEntry_lookup, Hdue. cbv zeta.
      rewrite decide_False by done. by rewrite Hl, Ha.
  - intros Hdue. rewrite Hdue in Hlast. split; [done|].
    intros k Hne. rewrite storeEntry_lookup, Hdue. cbv zeta. by rewrite decide_False.
  - reflexivity.
Qed.

Lemma setter_sweep_witness :
  let c := SetTidal 1000 "GBAYE0601498" 21 newTrackIDCache in
  let late := 1000 + 40 * Time.Minute in
  let c' := SetQobuz late "USUM71703861" 12 c in
  afterSetter late "USUM71703861" c c'
  ∧ cleanupDue late c = true
  ∧ lastCleanup c' = late
  ∧ cache c' !! "GBAYE0601498" = None.
Proof.
  cbv zeta.
  assert (Hs : afterSetter (1000 + 40 * Time.Minute) "USUM71703861"
                 (SetTidal 1000 "GBAYE0601498" 21 newTrackIDCache)
                 (SetQobuz (1000 + 40 * Time.Minute) "USUM71703861" 12
                    (SetTidal 1000 "GBAYE0601498" 21 newTrackIDCache)))
    by (right; left; by exists 12).
  split; [exact Hs|]. split; [by vm_compute|].
  split; [|by vm_compute].
  exact (proj1 (proj1 (proj2 (setter_sweep _ _ _ _ Hs)) ltac:(by vm_compute))).
Defined.

Lemma applyWrite_store now isrc w c :
  applyWrite now isrc w c
  = storeEntry now isrc (writtenEntry w (entryOrNew isrc c) (now + ttl c)) c.
Proof. by destruct w. Qed.

Lemma writtenEntry_expiry w old expiry : ExpiresAt (writtenEntry w old expiry) = expiry.
Proof. by destruct w. Qed.

Lemma cleanupDue_fields now c1 c2 :
  cleanupInterval c1 = cleanupInterval c2 → lastCleanup c1 = lastCleanup c2 →
  cleanupDue now c1 = cleanupDue now c2.
Proof. unfold cleanupDue. by intros -> ->. Qed.

(** A store under another key leaves the entry a write finds, when that
    entry has not expired. *)
Lemma entryOrNew_after_store now (a b : string) entry c :
  a ≠ b → notExpired now a c →
  entryOrNew a (storeEntry now b entry c) = entryOrNew a c.
Proof.
  intros Hne Hlive. unfold entryOrNew. rewrite storeEntry_lookup. cbv zeta.
  rewrite decide_False by done.
  destruct (cleanupDue now c); [|done].
  destruct (cache c !! a) as [e|] eqn:Hl; [|done]. by rewrite (Hlive e Hl).
Qed.

(** X3. Two writes at the same reading of the clock to two different
    identifiers, neither of which has an expired entry, can be made in
    either order: the cache is the same afterwards. *)
Theorem writes_to_distinct_identifiers_commute c (now : Time.Time) (a b : string)
    (wa wb : CacheWrite) :
  a ≠ b →
  0 ≤ ttl c →
  notExpired now a c →
  notExpired now b c →
  applyWrite now a wa (applyWrite now b wb c) = applyWrite now b wb (applyWrite now a wa c).
Proof.
  intros Hne Httl Ha Hb.
  rewrite (applyWrite_store now b wb c), (applyWrite_store now a wa c).
  set (eb := writtenEntry wb (entryOrNew b c) (now + ttl c)).
  set (ea := writtenEntry wa (entryOrNew a c) (now + ttl c)).
  rewrite (applyWrite_store now a wa), (applyWrite_store now b wb).
  rewrite (entryOrNew_after_store now a b eb c Hne Ha).
  rewrite (entryOrNew_after_store now b a ea c (not_eq_sym Hne) Hb).
  destruct (storeEntry_fields now b eb c) as (Htb & Hib & Hlb).
  destruct (storeEntry_fields now a ea c) as (Hta & Hia & Hla).
  rewrite Htb, Hta. fold ea eb.
  assert (Hea : Time.After now (ExpiresAt ea) = false).
  { unfold ea. rewrite writtenEntry_expiry. by apply After_Add_ttl. }
  assert (Heb : Time.After now (ExpiresAt eb) = false).
  { unfold eb. rewrite writtenEntry_expiry. by apply After_Add_ttl. }
  assert (Hdue : cleanupDue now (storeEntry now b eb c) = cleanupDue now (storeEntry now a ea c)).
  { apply cleanupDue_fields; congruence. }
  destruct (storeEntry_fields now a ea (storeEntry now b eb c)) as (Ht1 & Hi1 & Hl1).
  destruct (storeEntry_fields now b eb (storeEntry now a ea c)) as (Ht2 & Hi2 & Hl2).
  apply TrackIDCache_eq; [|congruence|rewrite Hl1, Hl2, Hdue, Hlb, Hla; done|congruence].
  apply map_eq. intros k. rewrite !storeEntry_lookup. cbv zeta. rewrite ?storeEntry_lookup.
  cbv zeta. rewrite Hdue.
  destruct (decide (k = a)) as [Hka|Hka]; destruct (decide (k = b)) as [Hkb|Hkb];
    [exfalso; congruence| | |];
    destruct (cleanupDue now (storeEntry now a ea c)); destruct (cleanupDue now c);
    rewrite ?Hea, ?Heb; try done;
    destruct (cache c !! k) as [e|]; try done;
    destruct (Time.After now (ExpiresAt e)) eqn:He; by rewrite ?He.
Qed.

Lemma writes_to_distinct_identifiers_commute_witness :
  let c := SetTidal 1000 "GBAYE0601498" 21 newTrackIDCache in
  let now := 1000 + 10 * Time.Minute in
  "USUM71703861" ≠ "GBAYE0601498"
  ∧ 0 ≤ ttl c
  ∧ notExpired now "USUM71703861" c
  ∧ notExpired now "GBAYE0601498" c
  ∧ applyWrite now "USUM71703861" (WriteAmazon "B0CYQHGWZJ")
      (applyWrite now "GBAYE0601498" (WriteQobuz 22) c)
    = applyWrite now "GBAYE0601498" (WriteQobuz 22)
        (applyWrite now "USUM71703861" (WriteAmazon "B0CYQHGWZJ") c).
Proof.
  cbv zeta.
  assert (H1 : "USUM71703861" ≠ "GBAYE0601498") by done.
  assert (H2 : 0 ≤ ttl (SetTidal 1000 "GBAYE0601498" 21 newTrackIDCache)) by (by vm_compute).
  assert (H3 : notExpired (1000 + 10 * Time.Minute) "USUM71703861"
                 (SetTidal 1000 "GBAYE0601498" 21 newTrackIDCache)).
  { intros e He. by vm_compute in He. }
  assert (H4 : notExpired (1000 + 10 * Time.Minute) "GBAYE0601498"
                 (SetTidal 1000 "GBAYE0601498" 21 newTrackIDCache)).
  { intros e He. vm_compute in He. injection He as <-. by vm_compute. }
  split; [exact H1|]. split; [exact H2|]. split; [exact H3|]. split; [exact H4|].
  exact (writes_to_distinct_identifiers_commute _ _ _ _
           (WriteAmazon "B0CYQHGWZJ") (WriteQobuz 22) H1 H2 H3 H4).
Defined.

(** An expired entry makes the order of two writes matter: the sweep of
    the first write removes it before the second write can keep its
    fields. *)
Example writes_do_not_commute_over_expired_entry :
  let c := SetQobuz 1000 "GBAYE0601498" 22 newTrackIDCache in
  let now := 1000 + 40 * Time.Minute in
  cache (applyWrite now "GBAYE0601498" (WriteTidal 21)
           (applyWrite now "USUM71703861" (WriteTidal 11) c)) !! "GBAYE0601498"
  = Some (tidalEntry 21 emptyEntry (now + 30 * Time.Minute))
  ∧ cache (applyWrite now "USUM71703861" (WriteTidal 11)
             (applyWrite now "GBAYE0601498" (WriteTidal 21) c)) !! "GBAYE0601498"
    = Some {| TidalTrackID := 21; QobuzTrackID := 22; AmazonTrackID := "";
              ExpiresAt := now + 30 * Time.Minute |}.
Proof. cbv zeta. split; by vm_compute. Qed.

(** X4. The cache grows by at most one entry with a write and does not
    grow with a [Get]; after [Clear] it is empty, and [Get] then answers
    not-found for every identifier and leaves the cache empty. *)
Theorem cache_size_bounds c (now now2 : Time.Time) isrc (w : CacheWrite) :
  (CacheSize (applyWrite now isrc w c) ≤ S (CacheSize c))%nat
  ∧ (CacheSize (snd (Get now now2 isrc c)) ≤ CacheSize c)%nat
  ∧ CacheSize (Clear c) = 0%nat
  ∧ Get now now2 isrc (Clear c) = (None, Clear c).
Proof.
  split; [|split; [|split]].
  - rewrite applyWrite_store. unfold storeEntry, cleanupIfDue, CacheSize.
    set (m := <[isrc := _]> (cache c)).
    assert (Hm : (size m ≤ S (size (cache c)))%nat).
    { unfold m. rewrite map_size_insert. destruct (cache c !! isrc); simpl; lia. }
    destruct (_ && _); simpl; [|done].
    etrans; [apply map_size_filter|done].
  - unfold Get, Get_between, Get_rlocked, Get_locked, CacheSize.
    destruct (cache c !! isrc) as [e|] eqn:Hl; simpl; [|done].
    destruct (Time.After now (ExpiresAt e)); simpl; [|done].
    destruct (Time.After now2 (ExpiresAt e)); simpl; [|done].
    rewrite map_size_delete, Hl. simpl. lia.
  - unfold CacheSize, Clear. simpl. apply map_size_empty.
  - unfold Get, Get_between, Get_rlocked, Clear. simpl. by rewrite lookup_empty.
Qed.

End CacheMore.


(** ** The ISRC file index *)

Section IndexMore.

Context `{Unicode}.

Implicit Types (idx : ISRCIndex) (st : gmap string ISRCIndex) (dir isrc : string).

(** X5. An identifier added to an index is found again with its path, under
    the spelling it was added with; the other identifiers are found as
    before; once removed it is not found. [Add] with an empty identifier or
    an empty path changes nothing, and the empty identifier is never
    found. *)
Theorem Add_then_lookup idx isrc (filePath : string) :
  isrc ≠ "" →
  filePath ≠ "" →
  Index.lookup (Index.Add idx isrc filePath) isrc = (filePath, true)
  ∧ Index.Lookup (Index.Add idx isrc filePath) isrc = Ok filePath
  ∧ (∀ other, Strings.ToUpper other ≠ Strings.ToUpper isrc →
       Index.lookup (Index.Add idx isrc filePath) other = Index.lookup idx other)
  ∧ Index.lookup (Index.remove (Index.Add idx isrc filePath) isrc) isrc = ("", false)
  ∧ Index.Add idx "" filePath = idx
  ∧ Index.Add idx isrc "" = idx
  ∧ Index.lookup idx "" = ("", false).
Proof.
  intros Hi Hp.
  assert (Hadd : Index.Add idx isrc filePath
                 = withIndex idx (<[Strings.ToUpper isrc := filePath]> (index idx))).
  { unfold Index.Add. by rewrite (eqb_empty_false _ Hi), (eqb_empty_false _ Hp). }
  assert (Hl : Index.lookup (Index.Add idx isrc filePath) isrc = (filePath, true)).
  { rewrite Hadd. unfold Index.lookup. rewrite (eqb_empty_false _ Hi). simpl.
    by rewrite lookup_insert_eq. }
  split; [done|]. split; [unfold Index.Lookup; by rewrite Hl|]. split.
  - intros other Hne. rewrite Hadd. unfold Index.lookup. simpl.
    destruct (String.eqb other ""); [done|]. by rewrite lookup_insert_ne.
  - split; [apply lookup_after_remove|]. split; [done|]. split; [|done].
    unfold Index.Add. rewrite (eqb_empty_false _ Hi). done.
Qed.

Lemma indexFile_indexedKey readMetadata (m : gmap string string) (e : WalkEntry) :
  indexFile readMetadata m e =
  match indexedKey readMetadata e with
  | Some key => <[key := walkPath e]> m
  | None => m
  end.
Proof.
  unfold indexFile, indexedKey.
  destruct (walkInfo e) as [info|]; [|done].
  destruct (IsDir info); [done|].
  destruct (negb _); [done|].
  destruct (readMetadata (walkPath e)) as [md|]; [|done].
  by destruct (String.eqb (ISRC md) "").
Qed.

(** The entries of the map after the walk: for each key the last file the
    walk stored under it, or the entry the map had. *)
Lemma fold_indexFile_lookup readMetadata (entries : list WalkEntry) :
  ∀ (m : gmap string string) key p,
  fold_left (indexFile readMetadata) entries m !! key = Some p ↔
    (∃ l1 e l2, entries = (l1 ++ e :: l2)%list
       ∧ indexedKey readMetadata e = Some key ∧ walkPath e = p
       ∧ ∀ e', e' ∈ l2 → indexedKey readMetadata e' ≠ Some key)
    ∨ (m !! key = Some p ∧ ∀ e', e' ∈ entries → indexedKey readMetadata e' ≠ Some key).
Proof.
  induction entries as [|e0 rest IH]; intros m key p; simpl.
  - split.
    + intros Hm. right. split; [done|]. intros e' He'. by apply elem_of_nil in He'.
    + intros [(l1 & e & l2 & Heq & _)|[Hm _]]; [by destruct l1|done].
  - rewrite IH. rewrite indexFile_indexedKey. split.
    + intros [(l1 & e & l2 & -> & Hk & Hp & Hlast)|[Hm Hnone]].
      * left. exists (e0 :: l1), e, l2. done.
      * destruct (indexedKey readMetadata e0) as [k0|] eqn:Hk0.
        -- destruct (decide (k0 = key)) as [->|Hne].
           ++ rewrite lookup_insert_eq in Hm. injection Hm as <-.
              left. exists [], e0, rest. done.
           ++ rewrite lookup_insert_ne in Hm by done. right. split; [done|].
              intros e' [->|He']%elem_of_cons; [congruence|by apply Hnone].
        -- right. split; [done|].
           intros e' [->|He']%elem_of_cons; [congruence|by apply Hnone].
    + intros [(l1 & e & l2 & Heq & Hk & Hp & Hlast)|[Hm Hnone]].
      * destruct l1 as [|e1 l1]; simpl in Heq; injection Heq as -> ->.
        -- right. rewrite Hk, <- Hp, lookup_insert_eq. done.
        -- left. by exists l1, e, l2.
      * right. split; [|intros e' He'; apply Hnone; by apply list_elem_of_further].
        destruct (indexedKey readMetadata e0) as [k0|] eqn:Hk0; [|done].
        rewrite lookup_insert_ne; [done|]. intros ->.
        by apply (Hnone e0 (list_elem_of_here _ _)).
Qed.

(** X6. The index [buildISRCIndex] builds for a named directory is stored
    in the cache under the directory and carries the time of the build.
    It holds a path under a key exactly when the walk met a file of that
    path that is no directory, has the extension [.flac] in any letter
    case and a readable tag with a non-empty ISRC whose uppercase form is
    the key, and met no such file for the same key afterwards: of two
    files with one identifier the one met last is kept. *)
Theorem buildISRCIndex_entries now os readMetadata dir st :
  dir ≠ "" →
  ∃ idx,
    buildISRCIndex now os readMetadata dir st = (idx, <[dir := idx]> st)
    ∧ buildTime idx = now ∧ outputDir idx = dir
    ∧ (∀ key p, index idx !! key = Some p ↔
         ∃ l1 e l2, Walk os dir = (l1 ++ e :: l2)%list
           ∧ indexedKey readMetadata e = Some key ∧ walkPath e = p
           ∧ ∀ e', e' ∈ l2 → indexedKey readMetadata e' ≠ Some key)
    ∧ (∀ e key, indexedKey readMetadata e = Some key ↔
         ∃ info metadata, walkInfo e = Ok info ∧ IsDir info = false
           ∧ Strings.ToLower (Filepath.Ext (walkPath e)) = ".flac"
           ∧ readMetadata (walkPath e) = Ok metadata
           ∧ ISRC metadata ≠ "" ∧ key = Strings.ToUpper (ISRC metadata)).
Proof.
  intros Hdir. unfold buildISRCIndex. rewrite (eqb_empty_false _ Hdir).
  eexists. split; [reflexivity|]. split; [done|]. split; [done|]. split.
  - intros key p. simpl. rewrite fold_indexFile_lookup. split.
    + intros [?|[Hm _]]; [done|]. by rewrite lookup_empty in Hm.
    + intros ?. by left.
  - intros e key. unfold indexedKey. split.
    + destruct (walkInfo e) as [info|]; [|done].
      destruct (IsDir info) eqn:Hd; [done|].
      destruct (String.eqb _ ".flac") eqn:Hext; [|done]. simpl.
      destruct (readMetadata (walkPath e)) as [md|]; [|done].
      destruct (String.eqb (ISRC md) "") eqn:Hi; [done|].
      intros [= <-]. exists info, md. apply String.eqb_eq in Hext.
      apply String.eqb_neq in Hi. done.
    + intros (info & md & -> & -> & Hext & -> & Hi & ->).
      rewrite Hext. simpl. by rewrite (eqb_empty_false _ Hi).
Qed.

(** X7. [GetISRCIndex] on a named directory hands out the index the cache
    holds for the directory afterwards, and leaves the other directories
    of the cache as they were. As long as that index is younger than five
    minutes, a further call hands out the same index and leaves the cache
    as it is, whatever is on disk then: no walk is made. Once the index is
    five minutes old, or after [InvalidateISRCCache], the next call builds
    the index anew. *)
Theorem GetISRCIndex_reuses_fresh_index now now2 os readMetadata dir st idx st1 :
  dir ≠ "" →
  GetISRCIndex now os readMetadata dir st = (idx, st1) →
  st1 !! dir = Some idx
  ∧ (∀ dir', dir' ≠ dir → st1 !! dir' = st !! dir')
  ∧ (Time.Since now2 (buildTime idx) < isrcIndexTTL →
       ∀ os' readMetadata', GetISRCIndex now2 os' readMetadata' dir st1 = (idx, st1))
  ∧ (isrcIndexTTL ≤ Time.Since now2 (buildTime idx) →
       ∀ os' readMetadata',
         GetISRCIndex now2 os' readMetadata' dir st1
         = buildISRCIndex now2 os' readMetadata' dir st1)
  ∧ (∀ os' readMetadata',
       GetISRCIndex now2 os' readMetadata' dir (InvalidateISRCCache dir st1)
       = buildISRCIndex now2 os' readMetadata' dir (InvalidateISRCCache dir st1)).
Proof.
  intros Hdir Hget.
  pose proof (GetISRCIndex_cached _ _ _ _ _ _ _ Hdir Hget) as Hc.
  split; [done|]. split; [|split; [|split]].
  - intros dir' Hne. revert Hget. unfold GetISRCIndex, freshIndex, buildISRCIndex.
    rewrite (eqb_empty_false _ Hdir).
    destruct (st !! dir) as [cached|].
    + destruct (Time.Since now (buildTime cached) <? isrcIndexTTL).
      * by intros [= <- <-].
      * intros [= <- <-]. by rewrite lookup_insert_ne.
    + intros [= <- <-]. by rewrite lookup_insert_ne.
  - intros Hf os' rm'. by apply GetISRCIndex_fresh.
  - intros Hs os' rm'. unfold GetISRCIndex, freshIndex. rewrite Hc.
    apply Z.ltb_ge in Hs. by rewrite Hs.
  - intros os' rm'. unfold GetISRCIndex, freshIndex, InvalidateISRCCache.
    by rewrite lookup_delete_eq.
Qed.

(** X8. The existence check answers found only with the path the index
    holds for the identifier, and only when [os.Stat] succeeds on that
    path and reports a file that is no directory and has a positive size;
    in every other case the path it returns is empty. With an empty
    identifier or an empty directory it answers not-found and touches
    neither the cache nor the disk. *)
Theorem checkISRCExistsInternal_found_is_on_disk now os readMetadata dir isrc st :
  match checkISRCExistsInternal now os readMetadata dir isrc st with
  | ((filePath, true), st') =>
      isrc ≠ "" ∧ dir ≠ ""
      ∧ (∃ info, Stat os filePath = Ok info ∧ IsDir info = false ∧ 0 < Size info)
      ∧ st' = snd (GetISRCIndex now os readMetadata dir st)
      ∧ ∃ idx, st' !! dir = Some idx ∧ Index.lookup idx isrc = (filePath, true)
  | ((filePath, false), st') => filePath = ""
  end
  ∧ (isrc = "" ∨ dir = "" →
       ∀ os', checkISRCExistsInternal now os' readMetadata dir isrc st = (("", false), st)).
Proof.
  split.
  - unfold checkISRCExistsInternal.
    destruct (String.eqb isrc "") eqn:Hi; [done|].
    destruct (String.eqb dir "") eqn:Hd; [done|]. simpl.
    apply String.eqb_neq in Hi, Hd.
    destruct (GetISRCIndex now os readMetadata dir st) as [idx st1] eqn:Hget.
    destruct (Index.lookup idx isrc) as [filePath [|]] eqn:Hl; simpl; [|done].
    destruct (CheckFileExists os filePath) eqn:Hc; simpl; [|done].
    split; [done|]. split; [done|]. split.
    + unfold CheckFileExists in Hc. destruct (Stat os filePath) as [info|]; [|done].
      apply andb_true_iff in Hc as [Hdir Hsize].
      exists info. apply negb_true_iff in Hdir. apply Z.ltb_lt in Hsize. done.
    + split; [done|]. exists idx. split; [|done]. by eapply GetISRCIndex_cached.
  - intros Hempty os'. unfold checkISRCExistsInternal.
    destruct Hempty as [-> | ->]; [done|]. by rewrite orb_true_r.
Qed.

(** X9. After the check has evicted the entry of a missing file, the next
    check for the identifier, made while the index is younger than five
    minutes, answers not-found again and leaves the cache as it is,
    whatever is on disk then: it makes no walk. *)
Theorem second_check_after_eviction_makes_no_walk
    now now2 os readMetadata dir isrc st idx st1 filePath :
  dir ≠ "" →
  GetISRCIndex now os readMetadata dir st = (idx, st1) →
  Index.lookup idx isrc = (filePath, true) →
  CheckFileExists os filePath = false →
  Time.Since now2 (buildTime idx) < isrcIndexTTL →
  ∃ st',
    checkISRCExistsInternal now os readMetadata dir isrc st = (("", false), st')
    ∧ ∀ os' readMetadata',
        checkISRCExistsInternal now2 os' readMetadata' dir isrc st' = (("", false), st').
Proof.
  intros Hdir Hget Hlook Hcheck Hfresh.
  destruct (lookup_found_nonempty _ _ _ Hlook) as [Hisrc Hidx].
  exists (<[dir := Index.remove idx isrc]> st1). split.
  - unfold checkISRCExistsInternal.
    rewrite Hisrc, (eqb_empty_false _ Hdir), Hget, Hlook. simpl. by rewrite Hcheck.
  - intros os' rm'. unfold checkISRCExistsInternal.
    rewrite Hisrc, (eqb_empty_false _ Hdir). simpl.
    rewrite (GetISRCIndex_fresh now2 os' rm' dir _ (Index.remove idx isrc)).
    + by rewrite lookup_after_remove.
    + apply lookup_insert_eq.
    + unfold Index.remove. by rewrite Hisrc.
Qed.

(** X10. A file added through [AddToISRCIndex] to the cached index of a
    directory is found by the existence check, under its path, while the
    index is younger than five minutes and the file is on disk; the check
    makes no walk for it. For a directory with no cached index
    [AddToISRCIndex] does nothing. *)
Theorem AddToISRCIndex_then_check now os readMetadata dir isrc (filePath : string) st idx :
  dir ≠ "" → isrc ≠ "" → filePath ≠ "" →
  st !! dir = Some idx →
  Time.Since now (buildTime idx) < isrcIndexTTL →
  CheckFileExists os filePath = true →
  checkISRCExistsInternal now os readMetadata dir isrc (AddToISRCIndex dir isrc filePath st)
  = ((filePath, true), AddToISRCIndex dir isrc filePath st)
  ∧ AddToISRCIndex dir isrc filePath st = <[dir := Index.Add idx isrc filePath]> st
  ∧ (∀ dir', st !! dir' = None → AddToISRCIndex dir' isrc filePath st = st).
Proof.
  intros Hdir Hisrc Hpath Hst Hfresh Hcheck.
  assert (Hadd : AddToISRCIndex dir isrc filePath st = <[dir := Index.Add idx isrc filePath]> st).
  { unfold AddToISRCIndex.
    by rewrite (eqb_empty_false _ Hdir), (eqb_empty_false _ Hisrc),
      (eqb_empty_false _ Hpath), Hst. }
  split; [|split; [done|]].
  - rewrite Hadd. unfold checkISRCExistsInternal.
    rewrite (eqb_empty_false _ Hdir), (eqb_empty_false _ Hisrc). simpl.
    rewrite (GetISRCIndex_fresh now os readMetadata dir _ (Index.Add idx isrc filePath)).
    + unfold Index.Add, Index.lookup.
      rewrite (eqb_empty_false _ Hisrc), (eqb_empty_false _ Hpath). simpl.
      rewrite lookup_insert_eq. simpl. by rewrite Hcheck.
    + apply lookup_insert_eq.
    + unfold Index.Add. by rewrite (eqb_empty_false _ Hisrc), (eqb_empty_false _ Hpath).
  - intros dir' Hnone. unfold AddToISRCIndex.
    destruct (_ || _); [done|]. by rewrite Hnone.
Qed.

(** X11. The batch check returns one result per submitted track, in the
    order of the tracks, with the identifier, the track name and the
    artist name of the track. A track is reported as existing exactly when
    the index holds its (non-empty) identifier, with the path the index
    holds; the files are not looked at, and the cache is left as
    [GetISRCIndex] left it, so an entry whose file is gone is reported as
    existing and stays in the index. When the tracks cannot be decoded the
    check fails and the cache is untouched. *)
Theorem CheckFilesExistParallel_results now os readMetadata J dir tracksJSON st :
  match UnmarshalTracks J tracksJSON with
  | Err e =>
      CheckFilesExistParallel now os readMetadata J dir tracksJSON st
      = (Err ("failed to parse tracks JSON: " +:+ e), st)
  | Ok tracks =>
      ∃ results,
        fst (CheckFilesExistParallel now os readMetadata J dir tracksJSON st)
        = match MarshalResults J results with
          | Ok resultJSON => Ok resultJSON
          | Err e => Err ("failed to marshal results: " +:+ e)
          end
        ∧ snd (CheckFilesExistParallel now os readMetadata J dir tracksJSON st)
          = snd (GetISRCIndex now os readMetadata dir st)
        ∧ length results = length tracks
        ∧ ∀ (i : nat) t, tracks !! i = Some t →
            ∃ r, results !! i = Some r
              ∧ FileExistenceResult.ISRC r = ExistenceTrack.ISRC t
              ∧ FileExistenceResult.TrackName r = ExistenceTrack.TrackName t
              ∧ FileExistenceResult.ArtistName r = ExistenceTrack.ArtistName t
              ∧ (FileExistenceResult.FilePath r, FileExistenceResult.Exists r)
                = Index.lookup (fst (GetISRCIndex now os readMetadata dir st))
                    (ExistenceTrack.ISRC t)
  end.
Proof.
  unfold CheckFilesExistParallel.
  destruct (UnmarshalTracks J tracksJSON) as [tracks|e]; [|done].
  destruct (GetISRCIndex now os readMetadata dir st) as [idx st1].
  exists (map (existenceOf idx) tracks).
  split; [by destruct (MarshalResults J _)|].
  split; [by destruct (MarshalResults J _)|].
  split; [apply length_map|].
  intros i t Ht. exists (existenceOf idx t).
  split; [by rewrite list_lookup_fmap, Ht|].
  unfold existenceOf. simpl.
  destruct (String.eqb (ExistenceTrack.ISRC t) "") eqn:Hi; simpl.
  - unfold Index.lookup. by rewrite Hi.
  - destruct (Index.lookup idx (ExistenceTrack.ISRC t)) as [p [|]] eqn:Hl; simpl; [done|].
    repeat split; try done. unfold Index.lookup in Hl. rewrite Hi in Hl.
    destruct (index idx !! _); [done|]. by injection Hl as <-.
Qed.

End IndexMore.

Lemma Add_then_lookup_witness :
  let idx := {| index := ∅; outputDir := "/sdcard/Music"; buildTime := 1000 |} in
  "usum71703861" ≠ ""
  ∧ "/sdcard/Music/song.flac" ≠ ""
  ∧ @Index.lookup sampleUnicode
      (@Index.Add sampleUnicode idx "usum71703861" "/sdcard/Music/song.flac") "usum71703861"
    = ("/sdcard/Music/song.flac", true).
Proof.
  cbv zeta. split; [done|]. split; [done|].
  exact (proj1 (@Add_then_lookup sampleUnicode
                  {| index := ∅; outputDir := "/sdcard/Music"; buildTime := 1000 |}
                  "usum71703861" "/sdcard/Music/song.flac"
                  ltac:(done) ltac:(done))).
Defined.

Lemma buildISRCIndex_entries_witness :
  "/sdcard/Music" ≠ ""
  ∧ ∃ idx,
      @buildISRCIndex sampleUnicode 1000 sampleOS sampleReadMetadata "/sdcard/Music" ∅
        = (idx, <["/sdcard/Music" := idx]> ∅)
      ∧ index idx !! "USUM71703861" = Some "/sdcard/Music/song.flac".
Proof.
  split; [done|].
  destruct (@buildISRCIndex_entries sampleUnicode 1000 sampleOS sampleReadMetadata
              "/sdcard/Music" ∅ ltac:(done)) as (idx & Hb & _ & _ & Hent & _).
  exists idx. split; [exact Hb|].
  apply Hent.
  exists [ {| walkPath := "/sdcard/Music"; walkInfo := Ok {| IsDir := true; Size := 4096 |} |};
           {| walkPath := "/sdcard/Music/empty.flac";
              walkInfo := Ok {| IsDir := false; Size := 0 |} |} ],
         {| walkPath := "/sdcard/Music/song.flac";
            walkInfo := Ok {| IsDir := false; Size := 4096 |} |}, [].
  split; [reflexivity|]. split; [reflexivity|]. split; [reflexivity|].
  intros e' He'. by apply elem_of_nil in He'.
Defined.

Lemma GetISRCIndex_reuses_fresh_index_witness :
  let st : gmap string ISRCIndex := ∅ in
  "/sdcard/Music" ≠ ""
  ∧ ∃ idx st1,
      @GetISRCIndex sampleUnicode 1000 sampleOS sampleReadMetadata "/sdcard/Music" st = (idx, st1)
      ∧ st1 !! "/sdcard/Music" = Some idx
      ∧ index idx !! "USUM71703861" = Some "/sdcard/Music/song.flac".
Proof.
  cbv zeta. split; [done|].
  eexists _, _. split; [by vm_compute|]. split; [|by vm_compute].
  refine (proj1 (@GetISRCIndex_reuses_fresh_index sampleUnicode 1000 1000 sampleOS
                   sampleReadMetadata "/sdcard/Music" ∅ _ _ ltac:(done) _)).
  by vm_compute.
Defined.

Lemma second_check_after_eviction_makes_no_walk_witness :
  let idx := {| index := {["USUM71703861" := "/sdcard/Music/gone.flac"]};
                outputDir := "/sdcard/Music"; buildTime := 1000 |} in
  let st : gmap string ISRCIndex := {["/sdcard/Music" := idx]} in
  "/sdcard/Music" ≠ ""
  ∧ @GetISRCIndex sampleUnicode 2000 sampleOS sampleReadMetadata "/sdcard/Music" st = (idx, st)
  ∧ @Index.lookup sampleUnicode idx "usum71703861" = ("/sdcard/Music/gone.flac", true)
  ∧ CheckFileExists sampleOS "/sdcard/Music/gone.flac" = false
  ∧ Time.Since 3000 (buildTime idx) < isrcIndexTTL
  ∧ ∃ st',
      @checkISRCExistsInternal sampleUnicode 2000 sampleOS sampleReadMetadata
        "/sdcard/Music" "usum71703861" st = (("", false), st')
      ∧ ∀ os' readMetadata',
          @checkISRCExistsInternal sampleUnicode 3000 os' readMetadata'
            "/sdcard/Music" "usum71703861" st' = (("", false), st').
Proof.
  intros idx st.
  assert (Hdir : "/sdcard/Music" ≠ "") by done.
  assert (Hget : @GetISRCIndex sampleUnicode 2000 sampleOS sampleReadMetadata
                   "/sdcard/Music" st = (idx, st)) by (by vm_compute).
  assert (Hlook : @Index.lookup sampleUnicode idx "usum71703861"
                  = ("/sdcard/Music/gone.flac", true)) by (by vm_compute).
  assert (Hcheck : CheckFileExists sampleOS "/sdcard/Music/gone.flac" = false)
    by reflexivity.
  assert (Hfresh : Time.Since 3000 (buildTime idx) < isrcIndexTTL) by (by vm_compute).
  repeat (split; [assumption|]).
  exact (@second_check_after_eviction_makes_no_walk sampleUnicode 2000 3000 sampleOS
           sampleReadMetadata "/sdcard/Music" "usum71703861" st idx st
           "/sdcard/Music/gone.flac" Hdir Hget Hlook Hcheck Hfresh).
Defined.

Lemma AddToISRCIndex_then_check_witness :
  let idx := {| index := ∅; outputDir := "/sdcard/Music"; buildTime := 1000 |} in
  let st : gmap string ISRCIndex := {["/sdcard/Music" := idx]} in
  "/sdcard/Music" ≠ "" ∧ "usum71703861" ≠ "" ∧ "/sdcard/Music/song.flac" ≠ ""
  ∧ st !! "/sdcard/Music" = Some idx
  ∧ Time.Since 2000 (buildTime idx) < isrcIndexTTL
  ∧ CheckFileExists sampleOS "/sdcard/Music/song.flac" = true
  ∧ @checkISRCExistsInternal sampleUnicode 2000 sampleOS sampleReadMetadata
      "/sdcard/Music" "usum71703861"
      (@AddToISRCIndex sampleUnicode "/sdcard/Music" "usum71703861" "/sdcard/Music/song.flac" st)
    = (("/sdcard/Music/song.flac", true),
       @AddToISRCIndex sampleUnicode "/sdcard/Music" "usum71703861" "/sdcard/Music/song.flac" st).
Proof.
  intros idx st.
  assert (Hdir : "/sdcard/Music" ≠ "") by done.
  assert (Hisrc : "usum71703861" ≠ "") by done.
  assert (Hpath : "/sdcard/Music/song.flac" ≠ "") by done.
  assert (Hst : st !! "/sdcard/Music" = Some idx) by apply lookup_singleton_eq.
  assert (Hfresh : Time.Since 2000 (buildTime idx) < isrcIndexTTL) by (by vm_compute).
  assert (Hcheck : CheckFileExists sampleOS "/sdcard/Music/song.flac" = true)
    by reflexivity.
  repeat (split; [assumption|]).
  exact (proj1 (@AddToISRCIndex_then_check sampleUnicode 2000 sampleOS sampleReadMetadata
                  "/sdcard/Music" "usum71703861" "/sdcard/Music/song.flac" st idx
                  Hdir Hisrc Hpath Hst Hfresh Hcheck)).
Defined.

(** ** The cache pre-warmer *)

Section PreWarmMore.

Implicit Types (c : TrackIDCache) (st : PreWarmState) (req : PreWarmCacheRequest.t).

(** What the goroutine of a request does: it logs the lookup of its
    service, and writes the id when the lookup succeeds. *)
Lemma preWarmOne_unfold now R req st :
  preWarmOne now R req st =
  {| trackIDCache :=
       match resolvedWrite R req with
       | Some w => applyWrite now (PreWarmCacheRequest.ISRC req) w (trackIDCache st)
       | None => trackIDCache st
       end;
     calls :=
       match lookupOf req with
       | Some call => (calls st ++ [call])%list
       | None => calls st
       end |}.
Proof.
  unfold preWarmOne, resolvedWrite, lookupOf,
    preWarmTidalCache, preWarmQobuzCache, preWarmAmazonCache.
  destruct (String.eqb _ "tidal").
  { by destruct (TidalSearchTrackByISRC R _) as [[?|]|]. }
  destruct (String.eqb _ "qobuz").
  { by destruct (QobuzSearchTrackByISRC R _) as [[?|]|]. }
  destruct (String.eqb _ "amazon").
  { destruct (CheckTrackAvailability R _ _) as [[a|]|]; try done. by destruct (Amazon a). }
  by destruct st.
Qed.

Lemma liveUntil_Get now t isrc c :
  now ≤ t → liveUntil t isrc c →
  ∃ entry, Get now now isrc c = (Some entry, c).
Proof.
  intros Hle (e & Hl & He). exists e. unfold Get, Get_between, Get_rlocked. rewrite Hl.
  assert (Time.After now (ExpiresAt e) = false) as -> by (apply Z.ltb_ge; lia). done.
Qed.

Lemma liveUntil_applyWrite_same now t isrc w c :
  0 ≤ ttl c → t ≤ now + ttl c → liveUntil t isrc (applyWrite now isrc w c).
Proof.
  intros Httl Ht. rewrite applyWrite_store.
  exists (writtenEntry w (entryOrNew isrc c) (now + ttl c)).
  rewrite writtenEntry_expiry. split; [|done].
  rewrite storeEntry_lookup. cbv zeta. rewrite decide_True by done.
  rewrite writtenEntry_expiry, After_Add_ttl by done. by destruct (cleanupDue now c).
Qed.

Lemma liveUntil_applyWrite_other now t (k isrc : string) w c :
  now ≤ t → k ≠ isrc → liveUntil t k c → liveUntil t k (applyWrite now isrc w c).
Proof.
  intros Hle Hne (e & Hl & He). exists e. split; [|done].
  rewrite applyWrite_store, storeEntry_lookup. cbv zeta. rewrite decide_False by done.
  rewrite Hl.
  assert (Time.After now (ExpiresAt e) = false) as -> by (apply Z.ltb_ge; lia).
  by destruct (cleanupDue now c).
Qed.

Lemma applyWrite_ttl now isrc w c : ttl (applyWrite now isrc w c) = ttl c.
Proof. rewrite applyWrite_store. apply storeEntry_fields. Qed.

(** An entry found after a write under another key was there before. *)
Lemma applyWrite_lookup_other now (k isrc : string) w c e :
  k ≠ isrc → cache (applyWrite now isrc w c) !! k = Some e → cache c !! k = Some e.
Proof.
  intros Hne. rewrite applyWrite_store, storeEntry_lookup. cbv zeta.
  rewrite decide_False by done.
  destruct (cleanupDue now c); [|done].
  destruct (cache c !! k) as [e0|]; [|done]. by destruct (Time.After now (ExpiresAt e0)).
Qed.

(** The state of the cache after the part of [Get] that the loop runs. *)
Lemma Get_cases now isrc c :
  (∃ entry, cache c !! isrc = Some entry ∧ Time.After now (ExpiresAt entry) = false
            ∧ Get now now isrc c = (Some entry, c))
  ∨ (∃ entry, cache c !! isrc = Some entry ∧ Time.After now (ExpiresAt entry) = true
              ∧ Get now now isrc c = (None, withCache c (delete isrc (cache c))))
  ∨ (cache c !! isrc = None ∧ Get now now isrc c = (None, c)).
Proof.
  unfold Get, Get_between, Get_rlocked, Get_locked.
  destruct (cache c !! isrc) as [e|] eqn:Hl; simpl; [|by right; right].
  destruct (Time.After now (ExpiresAt e)) eqn:Ha; simpl.
  - right. left. by exists e.
  - left. by exists e.
Qed.

(** The first batch: every identifier of a request that resolves ends up
    with an entry that lives until [t], when the entries the cache held for
    the identifiers of the batch had expired or live until [t]. *)
Lemma preWarmLoop_live now t R (requests : list PreWarmCacheRequest.t) :
  ∀ st (seen : string → Prop),
  0 ≤ ttl (trackIDCache st) → now ≤ t → t ≤ now + ttl (trackIDCache st) →
  (∀ req, req ∈ requests → is_Some (resolvedWrite R req)) →
  (∀ k, seen k → liveUntil t k (trackIDCache st)) →
  (∀ req e, req ∈ requests →
     cache (trackIDCache st) !! PreWarmCacheRequest.ISRC req = Some e →
     Time.After now (ExpiresAt e) = true ∨ t ≤ ExpiresAt e) →
  ttl (trackIDCache (preWarmLoop now R requests st)) = ttl (trackIDCache st)
  ∧ (∀ k, seen k → liveUntil t k (trackIDCache (preWarmLoop now R requests st)))
  ∧ (∀ req, req ∈ requests →
       liveUntil t (PreWarmCacheRequest.ISRC req) (trackIDCache (preWarmLoop now R requests st))).
Proof.
  induction requests as [|req rest IH]; intros st seen Httl Hnow Ht Hres Hdone Hinit.
  { simpl. split; [done|]. split; [done|]. intros req Hreq. by apply elem_of_nil in Hreq. }
  set (isrc := PreWarmCacheRequest.ISRC req).
  assert (Hrest : ∀ r, r ∈ rest → r ∈ req :: rest) by (intros; by apply list_elem_of_further).
  (* the state after this request, with the identifier of the request live *)
  assert (Hstep : ∃ st1,
            preWarmLoop now R (req :: rest) st = preWarmLoop now R rest st1
            ∧ ttl (trackIDCache st1) = ttl (trackIDCache st)
            ∧ liveUntil t isrc (trackIDCache st1)
            ∧ (∀ k, seen k → liveUntil t k (trackIDCache st1))
            ∧ (∀ k e, cache (trackIDCache st1) !! k = Some e →
                 k = isrc ∨ cache (trackIDCache st) !! k = Some e)).
  { cbn [preWarmLoop]. fold isrc.
    destruct (Hres req (list_elem_of_here _ _)) as [w Hw].
    destruct (Get_cases now isrc (trackIDCache st))
      as [(e & Hl & Ha & ->)|[(e & Hl & Ha & ->)|[Hl ->]]].
    - (* cached and live: skipped *)
      eexists. split; [reflexivity|]. simpl.
      split; [done|]. split; [|split; [done|]; intros; by right].
      exists e. split; [done|].
      destruct (Hinit req e (list_elem_of_here _ _) Hl) as [?|?]; [congruence|done].
    - (* expired: evicted, then resolved *)
      eexists. split; [reflexivity|]. rewrite preWarmOne_unfold, Hw. simpl. fold isrc.
      rewrite applyWrite_ttl. simpl.
      split; [done|]. split; [by apply liveUntil_applyWrite_same|]. split.
      + intros k Hk. destruct (decide (k = isrc)) as [->|Hne].
        * by apply liveUntil_applyWrite_same.
        * apply liveUntil_applyWrite_other; [done|done|].
          destruct (Hdone k Hk) as (e' & Hl' & He'). exists e'. simpl.
          by rewrite lookup_delete_ne.
      + intros k e' Hk. destruct (decide (k = isrc)) as [->|Hne]; [by left|]. right.
        apply applyWrite_lookup_other in Hk; [|done]. simpl in Hk.
        by rewrite lookup_delete_ne in Hk.
    - (* missing: resolved *)
      eexists. split; [reflexivity|]. rewrite preWarmOne_unfold, Hw. simpl. fold isrc.
      rewrite applyWrite_ttl.
      split; [done|]. split; [by apply liveUntil_applyWrite_same|]. split.
      + intros k Hk. destruct (decide (k = isrc)) as [->|Hne].
        * by apply liveUntil_applyWrite_same.
        * apply liveUntil_applyWrite_other; [done|done|by apply Hdone].
      + intros k e' Hk. destruct (decide (k = isrc)) as [->|Hne]; [by left|]. right.
        by apply applyWrite_lookup_other in Hk. }
  destruct Hstep as (st1 & -> & Httl1 & Hlive & Hdone1 & Hsub).
  destruct (IH st1 (λ k, seen k ∨ k = isrc)) as (Httl' & Hdone' & Hlive').
  - by rewrite Httl1.
  - done.
  - by rewrite Httl1.
  - intros r Hr. apply Hres. by apply Hrest.
  - intros k [Hk| ->]; [by apply Hdone1|done].
  - intros r e Hr Hl. destruct (Hsub _ _ Hl) as [Heq|Hold].
    + right. destruct Hlive as (e0 & Hl0 & He0). rewrite Heq in Hl. congruence.
    + apply (Hinit r e); [by apply Hrest|done].
  - split; [by rewrite Httl', Httl1|]. split.
    + intros k Hk. apply Hdone'. by left.
    + intros r [->|Hr]%elem_of_cons; [apply Hdone'; by right|by apply Hlive'].
Qed.

(** A batch whose identifiers all have live entries changes nothing. *)
Lemma preWarmLoop_all_live now R (requests : list PreWarmCacheRequest.t) st :
  (∀ req, req ∈ requests →
     liveUntil now (PreWarmCacheRequest.ISRC req) (trackIDCache st)) →
  preWarmLoop now R requests st = st.
Proof.
  induction requests as [|req rest IH]; intros Hlive; [done|].
  cbn [preWarmLoop].
  destruct (liveUntil_Get now now _ _ (Z.le_refl _) (Hlive req (list_elem_of_here _ _)))
    as [e ->].
  assert ({| trackIDCache := trackIDCache st; calls := calls st |} = st) as -> by (by destruct st).
  apply IH. intros r Hr. apply Hlive. by apply list_elem_of_further.
Qed.


Lemma omap_length_le {A B} (f : A → option B) (l : list A) :
  (length (omap f l) ≤ length l)%nat.
Proof.
  induction l as [|a l IH]; simpl; [done|].
  unfold omap in IH. destruct (f a); simpl; lia.
Qed.


End PreWarmMore.


(** ** The script execution controller *)

Section ExecMore.

Import Exec.

Implicit Types (s : State) (ev : Event) (evs : list Event).

Lemma completionInv_start : completionInv start noCompletion.
Proof. unfold completionInv. simpl. done. Qed.

Lemma afterDeadline_shape sent :
  value (afterDeadline sent) = None ∧ is_Some (err (afterDeadline sent)).
Proof. unfold afterDeadline. destruct (err sent); simpl; split; by eauto. Qed.

Lemma completionInv_step s h ev s' :
  completionInv s h → step s ev = Some s' → completionInv s' (recordCompletion ev h).
Proof.
  destruct s as [g c i ch]. unfold completionInv, step, recordCompletion. simpl.
  intros (Hd & Hc & Hg) Hstep. subst i.
  destruct ev; simpl in *.
  - (* RunReturns *)
    destruct g; simplify_eq/=. destruct Hg as (Hr & Hch & Hn).
    split; [done|]. split; [done|]. intros sent [= <-]. by left.
  - (* RunPanics *)
    destruct g; simplify_eq/=. done.
  - (* ReadsFlag *)
    destruct g; simplify_eq/=. done.
  - (* SendsResult *)
    destruct g; simplify_eq/=. destruct Hg as (Hr & Hch & Hn).
    split; [done|]. split; [done|]. intros sent Hs. congruence.
  - (* Receives *)
    destruct c; destruct ch as [res0|]; simplify_eq/=; destruct Hc as [Hi Hgr].
    + split; [done|]. split; [split; congruence|].
      destruct g; try (destruct Hg as (_ & ? & _); congruence).
      intros sent Hs. destruct (Hg sent Hs) as [[Hch _]|[? _]]; [|done].
      right. rewrite Hi. by simplify_eq.
    + split; [done|]. split.
      { split; [congruence|]. intros _. apply (afterDeadline_shape res0). }
      destruct g; try (destruct Hg as (_ & ? & _); congruence).
      intros sent Hs. destruct (Hg sent Hs) as [[Hch _]|[? _]]; [|done].
      right. rewrite Hi. by simplify_eq.
  - (* DeadlineFires *)
    destruct c; simplify_eq/=. destruct Hc as [Hi Hgr].
    split; [done|]. split; [done|].
    destruct g; try (destruct Hg as (? & ? & ?); by repeat split).
    intros sent Hs. destruct (Hg sent Hs) as [[Hch Hn]|(_ & _ & ?)]; [|done].
    left. done.
  - (* GraceElapses *)
    destruct c; simplify_eq/=. destruct Hc as [Hi Hgr].
    split; [done|]. split.
    { split; [done|]. intros _. split; [done|]. by eexists. }
    destruct g; try (destruct Hg as (? & ? & _); by repeat split).
    intros sent Hs. destruct (Hg sent Hs) as [[Hch Hn]|(_ & _ & ?)]; [|done].
    left. done.
Qed.

Lemma completionInv_run evs : ∀ s h s',
  completionInv s h → run s evs = Some s' → completionInv s' (completion s h evs).
Proof.
  induction evs as [|ev evs IH]; intros s h s' Hinv Hrun; simpl in *.
  - by simplify_eq.
  - destruct (step s ev) as [s1|] eqn:Hstep; [|done].
    eapply IH; [|done]. by eapply completionInv_step.
Qed.

(** What the invariant says of a schedule that makes the caller return. *)
Lemma completion_of_return evs res :
  RunWithTimeout evs = Some res →
  ∃ s, run start evs = Some s ∧ caller s = Returned res
       ∧ completionInv s (completion start noCompletion evs).
Proof.
  unfold RunWithTimeout. intros Hret.
  destruct (run start evs) as [s|] eqn:Hrun; [|done].
  exists s. split; [done|].
  split; [by destruct (caller s); simplify_eq|].
  by apply (completionInv_run evs start noCompletion s completionInv_start).
Qed.

(** X14. When the deadline has not ended and [RunString] has returned, the
    call returns what [RunString] returned, value and error unchanged. *)
Theorem RunWithTimeout_before_deadline evs res sent :
  RunWithTimeout evs = Some res →
  deadlineFired (completion start noCompletion evs) = false →
  returned (completion start noCompletion evs) = Some sent →
  res = sent.
Proof.
  intros Hret Hd Hsent.
  destruct (completion_of_return evs res Hret) as (s & _ & Hc & Hi & Hcs & Hg).
  rewrite Hc in Hcs. destruct Hcs as [Hforced _].
  rewrite Hd in Hi.
  assert (Hgr : graceFired (completion start noCompletion evs) = false).
  { destruct (graceFired _) eqn:Hgr; [|done].
    destruct (Hforced eq_refl) as [_ ?]. congruence. }
  destruct (goroutine s).
  1-3: destruct Hg as (? & _); congruence.
  destruct (Hg sent Hsent) as [[_ Hn]|(_ & _ & Hres)].
  - specialize (Hn res Hc). congruence.
  - rewrite Hc, <- Hi in Hres. by simplify_eq.
Qed.

(** X15. Once the deadline has ended the call returns no value and always
    an error. After the grace period it is the forced timeout. Within the
    grace period, when [RunString] has returned, an error it returned is
    handed on as it is, whatever its type, and the timeout error of the
    controller is returned only when [RunString] returned no error. *)
Theorem RunWithTimeout_after_deadline evs res :
  RunWithTimeout evs = Some res →
  deadlineFired (completion start noCompletion evs) = true →
  value res = None ∧ is_Some (err res)
  ∧ (graceFired (completion start noCompletion evs) = true → res = forcedResult)
  ∧ (∀ sent, graceFired (completion start noCompletion evs) = false →
       returned (completion start noCompletion evs) = Some sent →
       res = afterDeadline sent
       ∧ (∀ e, err sent = Some e → err res = Some e)
       ∧ (err sent = None → err res = Some timeoutError)).
Proof.
  intros Hret Hd.
  destruct (completion_of_return evs res Hret) as (s & _ & Hc & Hi & Hcs & Hg).
  rewrite Hc in Hcs. destruct Hcs as [Hforced Hshape].
  rewrite Hd in Hi. symmetry in Hi.
  destruct (Hshape Hi) as [Hv He].
  split; [done|]. split; [done|]. split; [by intros Hgr; destruct (Hforced Hgr)|].
  intros sent Hgr Hsent.
  assert (Hres : res = afterDeadline sent).
  { destruct (goroutine s).
    1-3: destruct Hg as (? & _); congruence.
    destruct (Hg sent Hsent) as [[_ Hn]|(_ & _ & Hres)].
    - specialize (Hn res Hc). congruence.
    - rewrite Hc, Hi in Hres. by simplify_eq. }
  split; [done|]. rewrite Hres. unfold afterDeadline.
  split; [by intros e ->|by intros ->].
Qed.

(** X16. The result channel is empty as long as the goroutine has sent
    nothing: its one send, on a channel of capacity one, never blocks, also
    after the caller has returned on the forced timeout. *)
Theorem send_never_blocks evs s :
  run start evs = Some s →
  goroutine s ≠ Exited →
  resultCh s = None.
Proof.
  intros Hrun Hg.
  destruct (completionInv_run evs start noCompletion s completionInv_start Hrun)
    as (_ & _ & Hinv).
  destruct (goroutine s); try (by destruct Hinv as (_ & ? & _)). done.
Qed.

End ExecMore.

Lemma RunWithTimeout_before_deadline_witness :
  let evs := [Exec.RunReturns (Some (VInt 1)) None; Exec.Receives] in
  let sent := {| Exec.value := Some (VInt 1); Exec.err := None |} in
  Exec.RunWithTimeout evs = Some sent
  ∧ deadlineFired (completion Exec.start noCompletion evs) = false
  ∧ returned (completion Exec.start noCompletion evs) = Some sent
  ∧ sent = sent.
Proof.
  intros evs sent.
  assert (Hret : Exec.RunWithTimeout evs = Some sent) by reflexivity.
  assert (Hd : deadlineFired (completion Exec.start noCompletion evs) = false)
    by reflexivity.
  assert (Hsent : returned (completion Exec.start noCompletion evs) = Some sent)
    by reflexivity.
  repeat (split; [assumption|]).
  exact (RunWithTimeout_before_deadline evs sent sent Hret Hd Hsent).
Defined.

Lemma RunWithTimeout_after_deadline_witness :
  let interrupt := Exec.EngineError "execution timeout" in
  let evs := [Exec.DeadlineFires; Exec.RunReturns None (Some interrupt); Exec.Receives] in
  let res := {| Exec.value := None; Exec.err := Some interrupt |} in
  Exec.RunWithTimeout evs = Some res
  ∧ deadlineFired (completion Exec.start noCompletion evs) = true
  ∧ Exec.IsTimeoutError (Exec.err res) = false
  ∧ Exec.value res = None ∧ is_Some (Exec.err res).
Proof.
  intros interrupt evs res.
  assert (Hret : Exec.RunWithTimeout evs = Some res) by reflexivity.
  assert (Hd : deadlineFired (completion Exec.start noCompletion evs) = true)
    by reflexivity.
  split; [assumption|]. split; [assumption|]. split; [reflexivity|].
  destruct (RunWithTimeout_after_deadline evs res Hret Hd) as (Hv & He & _).
  by split.
Defined.

Lemma send_never_blocks_witness :
  let evs := [Exec.DeadlineFires; Exec.GraceElapses; Exec.RunPanics "boom"] in
  let s := {| Exec.goroutine := Exec.Recovered "boom";
              Exec.caller := Exec.Returned Exec.forcedResult;
              Exec.interrupted := true; Exec.resultCh := None |} in
  Exec.run Exec.start evs = Some s
  ∧ Exec.goroutine s ≠ Exec.Exited
  ∧ Exec.resultCh s = None.
Proof.
  intros evs s.
  assert (Hrun : Exec.run Exec.start evs = Some s) by reflexivity.
  assert (Hg : Exec.goroutine s ≠ Exec.Exited) by done.
  split; [assumption|]. split; [assumption|].
  exact (send_never_blocks evs s Hrun Hg).
Defined.
